(** * Five-Word Chain: chain construction and the input state machine

    A shallow embedding of [script.js].  JavaScript strings are modelled as
    [string] (the dictionary only holds the letters A-Z), [s[i]] as an
    [option ascii] whose [None] is JavaScript's [undefined], a [Map] as a
    [gmap], a [Set] as a [gset], and arrays as lists read with [!!]. *)

From Stdlib Require Import Ascii DecimalString.
From stdpp Require Import gmap strings list.

(** ** Utilities *)

(** [s[i]]: the character at index [i], [None] (undefined) out of range. *)
Definition charAt (s : string) (i : nat) : option ascii := String.get i s.

(** The random source.  [Math.random()] is called once per index that is
    drawn; the [k]-th call of a run is represented by the raw number [rnd k],
    and [Math.floor(Math.random() * n)] by its remainder modulo [n], which is
    an arbitrary index below [n] (and [0] when [n] is [0]). *)
Definition Rng : Type := nat → nat.

Definition randIndex (rnd : Rng) (k n : nat) : nat :=
  match n with
  | 0 => 0
  | S _ => rnd k `mod` n
  end.

(** ** Chain building *)

Module Builder.

(** One iteration of the loop of [buildIndexByFirstLetter]. *)
Definition indexWord (map : gmap (option ascii) (list string)) (w : string)
  : gmap (option ascii) (list string) :=
  let l := charAt w 0 in
  let map1 := if bool_decide (is_Some (map !! l)) then map else <[l := []]> map in
  alter (λ ws, ws ++ [w]) l map1.

Definition buildIndexByFirstLetter (words : list string)
  : gmap (option ascii) (list string) :=
  foldl indexWord ∅ words.

(** Outcome of the inner loop of one attempt. *)
Inductive Walk : Type :=
  | WalkDone (chain : list string)   (* the loop ended with [ok] still true *)
  | WalkAbort                        (* [ok = false; break] *)
  | WalkTypeError.                   (* [prev[4]] on an undefined [prev] *)

(** Outcome of [tryBuildChain]. *)
Inductive Build : Type :=
  | Built (chain : list string)
  | BuildNull                        (* [return null] *)
  | BuildTypeError.                  (* an uncaught TypeError *)

Section WithDictionary.

Variable rnd : Rng.
Variable words : list string.
Variable byFirst : gmap (option ascii) (list string).

(** The loop [for (let i=1; i<5; i++)]: [fuel] is [5 - i], [k] counts the
    calls of [Math.random] made so far. *)
Fixpoint walk (fuel i k : nat) (chain : list string) (used : gset string)
  : Walk * nat :=
  match fuel with
  | 0 => (WalkDone chain, k)
  | S fuel' =>
    match chain !! (i - 1) with
    | None => (WalkTypeError, k)
    | Some prev =>
      let need := charAt prev 4 in
      let candidates :=
        filter (λ w, w ∉ used) (default [] (byFirst !! need)) in
      match candidates with
      | [] => (WalkAbort, k)
      | c0 :: _ =>
        (* the index is below [length candidates]: [c0] is never returned *)
        let pick := nth (randIndex rnd k (length candidates)) candidates c0 in
        walk fuel' (S i) (S k) (chain ++ [pick]) (used ∪ {[pick]})
      end
    end
  end.

(** The loop [for (let t=0; t<maxTries; t++)].  When [words] is empty,
    [w1] is undefined and the first [prev[4]] throws. *)
Fixpoint attempts (maxTries k : nat) : Build * nat :=
  match maxTries with
  | 0 => (BuildNull, k)
  | S t =>
    match words !! randIndex rnd k (length words) with
    | None => (BuildTypeError, S k)
    | Some w1 =>
      match walk 4 1 (S k) [w1] {[w1]} with
      | (WalkDone chain, k') => (Built chain, k')
      | (WalkAbort, k') => attempts t k'
      | (WalkTypeError, k') => (BuildTypeError, k')
      end
    end
  end.

End WithDictionary.

Definition tryBuildChain (rnd : Rng) (k : nat) (words : list string)
    (maxTries : nat) : Build * nat :=
  let byFirst := buildIndexByFirstLetter words in
  attempts rnd words byFirst maxTries k.

(** The exchange [[a[i], a[j]] = [a[j], a[i]]]. *)
Definition swap (a : list string) (i j : nat) : list string :=
  match a !! i, a !! j with
  | Some x, Some y => <[j := x]> (<[i := y]> a)
  | _, _ => a
  end.

(** The loop of [shuffle], [i] running from [a.length - 1] down to [1]. *)
Fixpoint shuffleFrom (rnd : Rng) (i k : nat) (a : list string)
  : list string * nat :=
  match i with
  | 0 => (a, k)
  | S i' => shuffleFrom rnd i' (S k) (swap a i (randIndex rnd k (S i)))
  end.

Definition shuffle (rnd : Rng) (k : nat) (a : list string) : list string * nat :=
  shuffleFrom rnd (length a - 1) k a.

(** The build phase of [newGame]: one call on the cached list and, while it
    returned [null], up to three more on shuffled copies. *)
Fixpoint retry (rnd : Rng) (cache : list string) (left k : nat) : Build * nat :=
  match left with
  | 0 => (BuildNull, k)
  | S left' =>
    let '(a, k1) := shuffle rnd k cache in
    match tryBuildChain rnd k1 a 5000 with
    | (BuildNull, k2) => retry rnd cache left' k2
    | r => r
    end
  end.

Definition buildWithRetries (rnd : Rng) (k : nat) (cache : list string)
  : Build * nat :=
  match tryBuildChain rnd k cache 5000 with
  | (BuildNull, k1) => retry rnd cache 3 k1
  | r => r
  end.

(** The Chain invariant of the data model. *)
Definition linked (chain : list string) : Prop :=
  ∀ i a b, chain !! i = Some a → chain !! S i = Some b →
    charAt a 4 = charAt b 0.

Definition isChain (chain : list string) : Prop :=
  length chain = 5 ∧ NoDup chain ∧ linked chain.

(** What the inner loop maintains: [chain] holds [i] distinct words of the
    dictionary, each linked to the next, and [used] is the set of them. *)
Definition walkInv (words : list string) (i : nat) (chain : list string)
    (used : gset string) : Prop :=
  length chain = i ∧ NoDup chain ∧ linked chain
  ∧ (∀ w, w ∈ used ↔ w ∈ chain) ∧ (∀ w, w ∈ chain → w ∈ words).

End Builder.

(** ** The game *)

Module Game.

(** The fields of the global [game] object that the input handling reads and
    writes.  [timerStart] and [timerId] belong to the timer display, which only
    reads the clock, and are left out. *)
Record GameState : Type := {
  words : list string;   (* target words *)
  idx : nat;             (* current word index *)
  typed : string;        (* the player's buffer, not yet permanent *)
  greenCount : nat;      (* how many leading letters are fixed *)
  active : bool
}.

(** The page: the [game] object and the number of [completeWord] calls that
    are suspended at [await sleep(200)]. *)
Record World : Type := {
  game : GameState;
  sleeping : nat
}.

Inductive TileClass : Type := Hidden | Green | HintGreen | Blue.

Inductive StatusMsg : Type :=
  | MsgBuilding
  | MsgCouldNotBuild
  | MsgStart (first : option ascii)
  | MsgTooShort
  | MsgNextLetter (position : nat)
  | MsgWordPrompt (number : nat) (first : option ascii)
  | MsgEmpty
  | MsgSolved.

(** What a handler sends to the page: tiles, status line, animations. *)
Inductive Signal : Type :=
  | SetTile (word pos : nat) (ch : option ascii) (cls : TileClass)
  | SetStatus (msg : StatusMsg)
  | ShakeWord (word : nat)
  | SlideLeft (word : nat)
  | RenderChain
  | StartTimer
  | StopTimer
  | ShowSummary (ws : list string).

(** A handler run: the value ([None] when a TypeError was thrown and not
    caught), the world it leaves behind, and the signals sent. *)
Record Res (A : Type) : Type := mkRes {
  val : option A;
  st : World;
  out : list Signal
}.
Arguments mkRes {A} _ _ _.
Arguments val {A} _.
Arguments st {A} _.
Arguments out {A} _.

Definition M (A : Type) : Type := World → Res A.

Definition ret {A} (a : A) : M A := λ w, mkRes (Some a) w [].

Definition bind {A B} (m : M A) (f : A → M B) : M B := λ w,
  let r := m w in
  match val r with
  | None => mkRes None (st r) (out r)
  | Some a => let r' := f a (st r) in mkRes (val r') (st r') (out r ++ out r')
  end.

Notation "x <- m ;; k" := (bind m (λ x, k))
  (at level 20, m at level 99, k at level 200, only parsing).
Notation "m ;; k" := (bind m (λ _, k))
  (at level 100, k at level 200, right associativity, only parsing).

Definition throw {A} : M A := λ w, mkRes None w [].
Definition emit (s : Signal) : M unit := λ w, mkRes (Some tt) w [s].
Definition getGame : M GameState := λ w, mkRes (Some (game w)) w [].
Definition setGame (f : GameState → GameState) : M unit := λ w,
  mkRes (Some tt) {| game := f (game w); sleeping := sleeping w |} [].

(** An [async] function called without [await]: what it throws before its
    first [await] rejects its promise and does not reach the caller. *)
Definition async (m : M unit) : M unit := λ w,
  let r := m w in mkRes (Some tt) (st r) (out r).

(** [await sleep(200)]: the rest of the function runs at a later [Wake]. *)
Definition sleep : M unit := λ w,
  mkRes (Some tt) {| game := game w; sleeping := S (sleeping w) |} [].

(** Reading a property of [x]: a TypeError when [x] is undefined. *)
Definition deref {A} (x : option A) : M A :=
  match x with
  | Some a => ret a
  | None => throw
  end.

Definition setIdx (n : nat) : M unit := setGame (λ g,
  {| words := words g; idx := n; typed := typed g;
     greenCount := greenCount g; active := active g |}).
Definition setTyped (s : string) : M unit := setGame (λ g,
  {| words := words g; idx := idx g; typed := s;
     greenCount := greenCount g; active := active g |}).
Definition setGreenCount (n : nat) : M unit := setGame (λ g,
  {| words := words g; idx := idx g; typed := typed g;
     greenCount := n; active := active g |}).
Definition setActive (b : bool) : M unit := setGame (λ g,
  {| words := words g; idx := idx g; typed := typed g;
     greenCount := greenCount g; active := b |}).
Definition setWords (ws : list string) : M unit := setGame (λ g,
  {| words := ws; idx := idx g; typed := typed g;
     greenCount := greenCount g; active := active g |}).

(** [for (let i = from; i < from + count; i++) body(i)]. *)
Fixpoint forLoop (count from : nat) (body : nat → M unit) : M unit :=
  match count with
  | 0 => ret tt
  | S count' => body from ;; forLoop count' (S from) body
  end.

(** *** Rendering.  [renderChain] fills [chainEl] with five word elements of
    five tiles each; [None] below is an element that does not exist. *)
Definition wordElement (w : nat) : option nat :=
  if w <? 5 then Some w else None.
Definition tileOf (w pos : nat) : option (nat * nat) :=
  if pos <? 5 then Some (w, pos) else None.

Definition setTile (el : option (nat * nat)) (ch : option ascii)
    (cls : TileClass) : M unit :=
  t <- deref el ;; emit (SetTile t.1 t.2 ch cls).

Definition shakeWord (el : option nat) : M unit :=
  w <- deref el ;; emit (ShakeWord w).

Definition paintCurrent : M unit :=
  g <- getGame ;;
  w <- deref (wordElement (idx g)) ;;
  forLoop (greenCount g) 0 (λ i,
    target <- deref (words g !! idx g) ;;
    setTile (tileOf w i) (charAt target i) Green) ;;
  forLoop (String.length (typed g)) 0 (λ i,
    let pos := greenCount g + i in
    setTile (tileOf w pos) (charAt (typed g) i) Blue) ;;
  forLoop (5 - (greenCount g + String.length (typed g)))
          (greenCount g + String.length (typed g)) (λ i,
    setTile (tileOf w i) None Hidden).

Definition showStartHint : M unit :=
  g <- getGame ;;
  w <- deref (wordElement 0) ;;
  first <- deref (words g !! 0) ;;
  setTile (tileOf w 0) (charAt first 0) HintGreen.

(** *** Word completion *)

(** [completeWord] after [await sleep(200)]. *)
Definition completeWordResume : M unit :=
  g0 <- getGame ;;
  setIdx (idx g0 + 1) ;;
  setTyped "" ;;
  setGreenCount 0 ;;
  g <- getGame ;;
  (if idx g <? 5
   then target <- deref (words g !! idx g) ;;
        emit (SetStatus (MsgWordPrompt (idx g + 1) (charAt target 0)))
   else emit (SetStatus MsgEmpty)) ;;
  if idx g <? 5 then
    w <- deref (wordElement (idx g)) ;;
    target <- deref (words g !! idx g) ;;
    setTile (tileOf w 0) (charAt target 0) HintGreen ;;
    setGreenCount 1 ;;
    paintCurrent
  else
    setActive false ;;
    emit StopTimer ;;
    emit (SetStatus MsgSolved) ;;
    emit (ShowSummary (words g)).

(** [completeWord()] as [onKeyDown] calls it: the part before the [await]. *)
Definition completeWord : M unit :=
  async (g <- getGame ;;
         w <- deref (wordElement (idx g)) ;;
         emit (SlideLeft w) ;;
         sleep).

(** *** Input handling *)

Definition isLetter (c : ascii) : bool :=
  let n := nat_of_ascii c in
  ((65 <=? n) && (n <=? 90)) || ((97 <=? n) && (n <=? 122)).

(** [/^[a-z]$/i.test(key)] *)
Definition isLetterKey (key : string) : bool :=
  match key with
  | String c EmptyString => isLetter c
  | _ => false
  end.

Definition upperAscii (c : ascii) : ascii :=
  let n := nat_of_ascii c in
  if (97 <=? n) && (n <=? 122) then ascii_of_nat (n - 32) else c.

(** [key.toUpperCase()], on the keys that pass [isLetterKey]. *)
Fixpoint toUpperCase (s : string) : string :=
  match s with
  | EmptyString => EmptyString
  | String c s' => String (upperAscii c) (toUpperCase s')
  end.

(** [s.slice(0, -1)] *)
Definition dropLast (s : string) : string :=
  String.substring 0 (String.length s - 1) s.

(** The comparison loop of the Enter branch, from index [i] on; [fuel] is
    [typed.length - i].  [None] is the TypeError of [target[pos]] on an
    undefined [target]. *)
Fixpoint scan (typed : string) (target : option string) (greenCount : nat)
    (fuel i newGreens : nat) : option nat :=
  match fuel with
  | 0 => Some newGreens
  | S fuel' =>
    match target with
    | None => None
    | Some t =>
      let pos := greenCount + i in
      if bool_decide (charAt typed i = charAt t pos)
      then scan typed target greenCount fuel' (S i) (S newGreens)
      else Some newGreens
    end
  end.

Definition onKeyDown (key : string) : M unit :=
  g <- getGame ;;
  if negb (active g) then ret tt else
  if bool_decide (key = "Enter") then
    let total := greenCount g + String.length (typed g) in
    if total <? 5 then
      emit (SetStatus MsgTooShort) ;;
      shakeWord (wordElement (idx g))
    else
      let target := words g !! idx g in
      newGreens <- deref (scan (typed g) target (greenCount g)
                               (String.length (typed g)) 0 (greenCount g)) ;;
      setGreenCount newGreens ;;
      (* [keepLen] is computed here and never used *)
      setTyped "" ;;
      paintCurrent ;;
      g' <- getGame ;;
      if 5 <=? greenCount g' then
        completeWord
      else
        word <- deref (words g' !! idx g') ;;
        let nextChar := charAt word (greenCount g') in
        emit (SetStatus (MsgNextLetter (greenCount g' + 1))) ;;
        shakeWord (wordElement (idx g'))
  else if bool_decide (key = "Backspace") then
    if 0 <? String.length (typed g) then
      setTyped (dropLast (typed g)) ;;
      paintCurrent
    else ret tt
  else if isLetterKey key then
    if 5 <=? greenCount g + String.length (typed g) then ret tt else
    setTyped (typed g +:+ toUpperCase key) ;;
    paintCurrent
  else ret tt.

(** *** Game boot *)

(** The second half of [newGame], once [chain] is not null. *)
Definition startGame (chain : list string) : M unit :=
  emit RenderChain ;;
  setWords chain ;;
  setIdx 0 ;;
  setTyped "" ;;
  setGreenCount 1 ;;
  setActive true ;;
  showStartHint ;;
  paintCurrent ;;
  emit StartTimer ;;
  g <- getGame ;;
  first <- deref (words g !! 0) ;;
  emit (SetStatus (MsgStart (charAt first 0))).

(** [newGame] once the word list [cache] is loaded. *)
Definition newGame (rnd : Rng) (k : nat) (cache : list string) : M unit :=
  emit (SetStatus MsgBuilding) ;;
  match (Builder.buildWithRetries rnd k cache).1 with
  | Builder.Built chain => startGame chain
  | Builder.BuildNull => emit (SetStatus MsgCouldNotBuild)
  | Builder.BuildTypeError => throw
  end.

(** *** The event loop: handlers run one at a time, to completion. *)
Inductive Event : Type :=
  | KeyDown (key : string)
  | Wake                                       (* a [sleep(200)] elapses *)
  | NewGame (rnd : Rng) (k : nat) (cache : list string).

Definition wake : M unit := λ w,
  match sleeping w with
  | 0 => mkRes (Some tt) w []
  | S n => completeWordResume {| game := game w; sleeping := n |}
  end.

Definition handle (e : Event) : M unit :=
  match e with
  | KeyDown key => onKeyDown key
  | Wake => wake
  | NewGame rnd k cache => newGame rnd k cache
  end.

(** An exception ends the handler that threw it; the page lives on with the
    state that handler left. *)
Definition step (w : World) (e : Event) : World := st (handle e w).

Definition run (es : list Event) (w : World) : World := foldl step w es.

(** The [game] object as the script creates it. *)
Definition game0 : GameState :=
  {| words := []; idx := 0; typed := ""; greenCount := 0; active := false |}.
Definition world0 : World := {| game := game0; sleeping := 0 |}.

Definition reachable (w : World) : Prop := ∃ es, w = run es world0.

(** The letters of [typed] that match [target] from position [greenCount] on,
    up to the first mismatch: [n] is that number. *)
Definition leadingMatches (typed target : string) (greenCount n : nat) : Prop :=
  n ≤ String.length typed
  ∧ (∀ j, j < n → charAt typed j = charAt target (greenCount + j))
  ∧ (n < String.length typed → charAt typed n ≠ charAt target (greenCount + n)).

(** A sample chain and the page once a game on it has started. *)
Definition sampleChain : list string :=
  ["SMART"; "TRACE"; "EAGER"; "RADIO"; "OTHER"].
Definition sampleStart : World :=
  run [NewGame (λ _, 0) 0 sampleChain] world0.

(** A computation that leaves the [game] object as it found it (it may still
    send signals, throw, or suspend a [completeWord]). *)
Definition keepsGame {A} (m : M A) : Prop := ∀ w, game (st (m w)) = game w.

(** A computation that leaves the whole world as it found it. *)
Definition keepsWorld {A} (m : M A) : Prop := ∀ w, st (m w) = w.

(** What holds of the page at all times: the confirmed and the typed letters
    fit the five tiles, a game that is active or has a completion pending has
    five target words, and an active game has a current word. *)
Definition invariant (w : World) : Prop :=
  greenCount (game w) + String.length (typed (game w)) ≤ 5
  ∧ (active (game w) = true ∨ 0 < sleeping w → length (words (game w)) = 5)
  ∧ (active (game w) = true → idx (game w) < 5).

End Game.


(** ** Reading the word list *)

Module Parser.

(** The text of [words.csv] is taken to be ASCII; on such text [trim] removes
    the six characters below and [toUpperCase] changes the letters a-z only. *)

(** A character of the class [[, \n\r\t]]. *)
Definition isSeparator (c : ascii) : bool :=
  let n := nat_of_ascii c in
  (n =? 44) || (n =? 32) || (n =? 10) || (n =? 13) || (n =? 9).

(** [text.split(/[, \n\r\t]+/g)]: the pieces between the maximal runs of
    separators, with an empty first or last piece when the text starts or ends
    with a run, and the single piece [""] for the empty text.  [inRun] says
    that the character before was a separator. *)
Fixpoint splitFrom (inRun : bool) (s : string) : list string :=
  match s with
  | EmptyString => [""]
  | String c s' =>
    if isSeparator c then
      if inRun then splitFrom true s' else "" :: splitFrom true s'
    else
      match splitFrom false s' with
      | piece :: pieces => String c piece :: pieces
      | [] => [String c ""]
      end
  end.

Definition split (text : string) : list string := splitFrom false text.

Definition isWhiteSpace (c : ascii) : bool :=
  let n := nat_of_ascii c in
  ((9 <=? n) && (n <=? 13)) || (n =? 32).

Fixpoint trimStart (s : string) : string :=
  match s with
  | EmptyString => EmptyString
  | String c s' => if isWhiteSpace c then trimStart s' else s
  end.

Fixpoint trimEnd (s : string) : string :=
  match s with
  | EmptyString => EmptyString
  | String c s' =>
    match trimEnd s' with
    | EmptyString => if isWhiteSpace c then EmptyString else String c EmptyString
    | t => String c t
    end
  end.

(** [s.trim()] *)
Definition trim (s : string) : string := trimEnd (trimStart s).

Definition isUpper (c : ascii) : bool :=
  let n := nat_of_ascii c in (65 <=? n) && (n <=? 90).

Fixpoint allChars (p : ascii → bool) (s : string) : bool :=
  match s with
  | EmptyString => true
  | String c s' => p c && allChars p s'
  end.

(** [/^[A-Z]{5}$/.test(w)] *)
Definition isWord (w : string) : bool :=
  (String.length w =? 5) && allChars isUpper w.

Definition parseCSV (text : string) : list string :=
  let raw :=
    filter (λ s, s ≠ "")
      (map (λ s, Game.toUpperCase (trim s)) (split text)) in
  filter (λ w, isWord w = true) raw.

(** A character of the ASCII range, on which the definitions above are those
    of the script. *)
Definition isAscii (c : ascii) : bool := nat_of_ascii c <? 128.

(** [ws.join(sep)] *)
Fixpoint join (sep : string) (ws : list string) : string :=
  match ws with
  | [] => ""
  | [w] => w
  | w :: ws' => w +:+ sep +:+ join sep ws'
  end.

End Parser.

(** ** The timer *)

Module Timer.

(** The timer's share of the page: [game.timerStart], [game.timerId], the
    interval ids that [setInterval] has handed out and [clearInterval] has not
    yet taken back, and the text of [timerEl].  Interval ids are positive
    integers; time stamps are integers of milliseconds. *)
Record TimerState : Type := {
  timerStart : Z;
  timerId : option positive;
  live : gset positive;
  text : string
}.

Definition timer0 : TimerState :=
  {| timerStart := 0; timerId := None; live := ∅; text := "" |}.

(** [if (game.timerId) clearInterval(game.timerId)] *)
Definition clearStored (t : TimerState) : gset positive :=
  match timerId t with
  | Some id => live t ∖ {[id]}
  | None => live t
  end.

Definition resetTimer (t : TimerState) : TimerState :=
  {| timerStart := timerStart t; timerId := timerId t;
     live := clearStored t; text := "00:00" |}.

(** [startTimer] at time [now], when [setInterval] returns [id]. *)
Definition startTimer (now : Z) (id : positive) (t : TimerState) : TimerState :=
  let t1 := resetTimer t in
  {| timerStart := now; timerId := Some id;
     live := live t1 ∪ {[id]}; text := text t1 |}.

Definition stopTimer (t : TimerState) : TimerState :=
  {| timerStart := timerStart t; timerId := None;
     live := clearStored t; text := text t |}.

(** [("" + n)] for an integer [n]. *)
Definition show (n : Z) : string :=
  match n with
  | Z0 => "0"
  | Zpos p => NilZero.string_of_uint (Pos.to_uint p)
  | Zneg p => "-" +:+ NilZero.string_of_uint (Pos.to_uint p)
  end.

Definition pad2 (n : Z) : string :=
  if (n <? 10)%Z then "0" +:+ show n else show n.

(** The text that the interval callback writes at time [now]: [Math.floor]
    of a quotient by a positive number is [Z.div] (the quotients of the
    integers that [Date.now] returns are far enough from the next integer for
    the floating-point division not to reach it), [%] is [Z.rem]. *)
Definition timeText (start now : Z) : string :=
  let secs := ((now - start) `div` 1000)%Z in
  let m := (secs `div` 60)%Z in
  let s := Z.rem secs 60 in
  pad2 m +:+ ":" +:+ pad2 s.

(** The callback of interval [id] runs only while that interval is live. *)
Definition tick (now : Z) (id : positive) (t : TimerState) : TimerState :=
  if bool_decide (id ∈ live t)
  then {| timerStart := timerStart t; timerId := timerId t; live := live t;
          text := timeText (timerStart t) now |}
  else t.

Inductive TimerEvent : Type :=
  | Start (now : Z) (id : positive)
  | Stop
  | Tick (now : Z) (id : positive).

Definition timerStep (t : TimerState) (e : TimerEvent) : TimerState :=
  match e with
  | Start now id => startTimer now id t
  | Stop => stopTimer t
  | Tick now id => tick now id t
  end.

Definition timerRun (es : list TimerEvent) (t : TimerState) : TimerState :=
  foldl timerStep t es.

(** The digit character of [d < 10]. *)
Definition digit (d : nat) : ascii := ascii_of_nat (48 + d).

(** Two digits of minutes, a colon, two digits of seconds. *)
Definition mmss (secs : nat) : string :=
  String (digit (secs / 600)) (String (digit ((secs / 60) `mod` 10))
    (String ":" (String (digit ((secs `mod` 60) / 10))
      (String (digit (secs `mod` 10)) "")))).

End Timer.

(** ** Playing *)

Module Play.

Import Game.

(** One key press per character of [s]. *)
Definition typeLetters (s : string) : list Event :=
  map (λ c, KeyDown (String c "")) (String.list_ascii_of_string s).

(** Typing what is left of [target] after its first letter, submitting, and
    letting the completion run. *)
Definition playWord (target : string) : list Event :=
  typeLetters (String.substring 1 4 target) ++ [KeyDown "Enter"; Wake].

Definition playAll (chain : list string) : list Event :=
  concat (map playWord chain).

(** The tile that [paintCurrent] paints at position [i] of the current word. *)
Definition tileAt (g : GameState) (target : string) (i : nat) : Signal :=
  if i <? greenCount g then SetTile (idx g) i (charAt target i) Green
  else if i <? greenCount g + String.length (typed g)
       then SetTile (idx g) i (charAt (typed g) (i - greenCount g)) Blue
       else SetTile (idx g) i None Hidden.

(** The page at the start of word [i], and at the end of the game. *)
Definition atWord (chain : list string) (n i : nat) : World :=
  {| game := {| words := chain; idx := i; typed := ""; greenCount := 1;
                active := true |};
     sleeping := n |}.

Definition finished (chain : list string) (n : nat) : World :=
  {| game := {| words := chain; idx := 5; typed := ""; greenCount := 0;
                active := false |};
     sleeping := n |}.

End Play.

(** The dictionary words that start with [l], in order. *)
Definition startingWith (l : option ascii) (words : list string) : list string :=
  filter (λ w, charAt w 0 = l) words.

(** Every letter that ends a word starts five different words. *)
Definition abundant (words : list string) : Prop :=
  ∀ w, w ∈ words →
    5 ≤ size (list_to_set (startingWith (charAt w 4) words) : gset string).

(** * Properties of the chain builder *)

Section BuilderFacts.

Import Builder.

Lemma randIndex_lt rnd k n : 0 < n → randIndex rnd k n < n.
Proof.
  destruct n as [|n]; [lia|]. intros _. unfold randIndex.
  apply Nat.mod_upper_bound. lia.
Qed.

(** Every word filed under a letter starts with that letter and comes from
    the list being indexed. *)
Lemma indexWord_sound (P : string → Prop) map w :
  P w →
  (∀ l xs x, map !! l = Some xs → x ∈ xs → P x ∧ charAt x 0 = l) →
  ∀ l xs x, indexWord map w !! l = Some xs → x ∈ xs → P x ∧ charAt x 0 = l.
Proof.
  intros Hw Hmap l xs x. unfold indexWord.
  destruct (decide (charAt w 0 = l)) as [<-|Hne].
  - rewrite lookup_alter_eq. case_bool_decide as Hhas.
    + destruct Hhas as [ys Hys]. rewrite Hys. simpl. intros [= <-] Hin.
      apply elem_of_app in Hin as [Hin|Hin%list_elem_of_singleton].
      * eapply Hmap; eauto.
      * by subst.
    + rewrite lookup_insert_eq. simpl. intros [= <-] Hin.
      apply list_elem_of_singleton in Hin. by subst.
  - rewrite lookup_alter_ne by done. case_bool_decide.
    + apply Hmap.
    + rewrite lookup_insert_ne by done. apply Hmap.
Qed.

Lemma foldl_indexWord_sound (P : string → Prop) ws : ∀ map,
  (∀ w, w ∈ ws → P w) →
  (∀ l xs x, map !! l = Some xs → x ∈ xs → P x ∧ charAt x 0 = l) →
  ∀ l xs x, foldl indexWord map ws !! l = Some xs → x ∈ xs →
    P x ∧ charAt x 0 = l.
Proof.
  induction ws as [|w ws IH]; intros map Hws Hmap; simpl; [exact Hmap|].
  apply IH.
  - intros v Hv. apply Hws. by right.
  - apply indexWord_sound; [|done]. apply Hws. by left.
Qed.

Lemma buildIndexByFirstLetter_sound words l xs x :
  buildIndexByFirstLetter words !! l = Some xs → x ∈ xs →
  x ∈ words ∧ charAt x 0 = l.
Proof.
  apply (foldl_indexWord_sound (λ w, w ∈ words)); [done|].
  intros ? ? ?. by rewrite lookup_empty.
Qed.

Lemma walkInv_start words w1 :
  w1 ∈ words → walkInv words 1 [w1] {[w1]}.
Proof.
  intros Hw. repeat split.
  - apply NoDup_singleton.
  - intros [|[|i]] a b Ha Hb; done.
  - intros ->%elem_of_singleton. by left.
  - intros ->%list_elem_of_singleton. by apply elem_of_singleton.
  - by intros v ->%list_elem_of_singleton.
Qed.

Lemma walkInv_push words i chain used prev pick :
  walkInv words i chain used →
  chain !! (i - 1) = Some prev →
  pick ∉ used → pick ∈ words → charAt pick 0 = charAt prev 4 →
  walkInv words (S i) (chain ++ [pick]) (used ∪ {[pick]}).
Proof.
  intros (Hlen & Hnd & Hlink & Hused & Hsub) Hprev Hfresh Hin Hadj.
  assert (0 < i) as Hpos.
  { apply lookup_lt_Some in Hprev. lia. }
  repeat split.
  - rewrite length_app. simpl. lia.
  - apply NoDup_app. split_and!; [done| |apply NoDup_singleton].
    intros x Hx ->%list_elem_of_singleton. apply Hfresh. by apply Hused.
  - intros j a b Ha Hb.
    destruct (decide (S j < length chain)) as [Hlt|Hge].
    + rewrite lookup_app_l in Ha by lia. rewrite lookup_app_l in Hb by lia.
      by eapply Hlink.
    + assert (S j = length chain) as Hj.
      { apply lookup_lt_Some in Hb. rewrite length_app in Hb. simpl in Hb. lia. }
      rewrite lookup_app_l in Ha by lia.
      rewrite lookup_app_r in Hb by lia.
      replace (S j - length chain) with 0 in Hb by lia. simpl in Hb.
      replace j with (i - 1) in Ha by lia.
      congruence.
  - intros [Hw|Hw%elem_of_singleton]%elem_of_union; apply elem_of_app.
    + left. by apply Hused.
    + right. subst. by left.
  - intros [Hw|Hw%list_elem_of_singleton]%elem_of_app; apply elem_of_union.
    + left. by apply Hused.
    + right. by apply elem_of_singleton.
  - intros w [Hw|Hw%list_elem_of_singleton]%elem_of_app; [by apply Hsub|by subst].
Qed.

Lemma walk_done rnd words fuel : ∀ i k chain used chain' k',
  walkInv words i chain used →
  walk rnd (buildIndexByFirstLetter words) fuel i k chain used
    = (WalkDone chain', k') →
  length chain' = i + fuel ∧ NoDup chain' ∧ linked chain'
  ∧ ∀ w, w ∈ chain' → w ∈ words.
Proof.
  induction fuel as [|fuel IH]; intros i k chain used chain' k' Hinv; simpl.
  - intros [= <- <-]. destruct Hinv as (? & ? & ? & ? & ?).
    split_and!; [lia|done..].
  - destruct (chain !! (i - 1)) as [prev|] eqn:Hprev; [|done].
    destruct (filter _ _) as [|c0 cs] eqn:Hcand; [done|].
    assert (∃ pick, pick = nth (randIndex rnd k (length (c0 :: cs))) (c0 :: cs) c0
                    ∧ pick ∈ c0 :: cs) as (pick & <- & Hpick).
    { eexists. split; [done|].
      apply list_elem_of_In, nth_In, randIndex_lt. simpl. lia. }
    intros Hwalk. apply IH in Hwalk.
    + replace (i + S fuel) with (S i + fuel) by lia. exact Hwalk.
    + rewrite <- Hcand in Hpick.
      apply list_elem_of_filter in Hpick as [Hfresh Hpick].
      destruct (buildIndexByFirstLetter words !! charAt prev 4) as [xs|] eqn:Hxs;
        simpl in Hpick; [|by apply not_elem_of_nil in Hpick].
      destruct (buildIndexByFirstLetter_sound _ _ _ _ Hxs Hpick) as [Hin Hadj].
      by eapply walkInv_push.
Qed.

(** No attempt ever runs into an undefined [prev] once [w1] is defined. *)
Lemma walk_no_TypeError rnd byFirst fuel : ∀ i k chain used k',
  length chain = i → 0 < i →
  walk rnd byFirst fuel i k chain used ≠ (WalkTypeError, k').
Proof.
  induction fuel as [|fuel IH]; intros i k chain used k' Hlen Hpos; simpl; [done|].
  destruct (chain !! (i - 1)) as [prev|] eqn:Hprev.
  - destruct (filter _ _) as [|c0 cs]; [done|].
    apply IH; [|lia]. rewrite length_app. simpl. lia.
  - apply lookup_ge_None in Hprev. lia.
Qed.

Lemma attempts_built rnd words maxTries : ∀ k chain k',
  attempts rnd words (buildIndexByFirstLetter words) maxTries k
    = (Built chain, k') →
  isChain chain ∧ ∀ w, w ∈ chain → w ∈ words.
Proof.
  induction maxTries as [|t IH]; intros k chain k'; cbn [attempts]; [done|].
  destruct (words !! _) as [w1|] eqn:Hw1; [|done].
  destruct (walk rnd _ 4 1 (S k) [w1] {[w1]}) as [[chain1| |] k1] eqn:Hwalk;
    [|apply IH|done].
  intros [= <- <-].
  apply walk_done in Hwalk as (? & ? & ? & ?).
  - by repeat split.
  - apply walkInv_start. by eapply list_elem_of_lookup_2.
Qed.

Lemma tryBuildChain_built rnd k words maxTries chain k' :
  tryBuildChain rnd k words maxTries = (Built chain, k') →
  isChain chain ∧ ∀ w, w ∈ chain → w ∈ words.
Proof. apply attempts_built. Qed.

Lemma swap_Permutation a i j : swap a i j ≡ₚ a.
Proof.
  unfold swap. destruct (a !! i) as [x|] eqn:Hi; [|done].
  destruct (a !! j) as [y|] eqn:Hj; [|done].
  by apply Permutation_insert_swap.
Qed.

Lemma shuffleFrom_Permutation rnd i : ∀ k a, (shuffleFrom rnd i k a).1 ≡ₚ a.
Proof.
  induction i as [|i IH]; intros k a; simpl; [done|].
  rewrite IH. apply swap_Permutation.
Qed.

Lemma shuffle_Permutation rnd k a : (shuffle rnd k a).1 ≡ₚ a.
Proof. apply shuffleFrom_Permutation. Qed.

Lemma retry_built rnd cache left : ∀ k chain k',
  retry rnd cache left k = (Built chain, k') →
  isChain chain ∧ ∀ w, w ∈ chain → w ∈ cache.
Proof.
  induction left as [|left IH]; intros k chain k'; cbn [retry]; [done|].
  pose proof (shuffle_Permutation rnd k cache) as Hperm.
  destruct (shuffle rnd k cache) as [a k1]. simpl in Hperm.
  destruct (tryBuildChain rnd k1 a 5000) as [[chain1| |] k2] eqn:Htry;
    [|apply IH|done].
  intros [= <- <-]. apply tryBuildChain_built in Htry as [Hchain Hsub].
  split; [done|]. intros w Hw. rewrite <- Hperm. by apply Hsub.
Qed.

Lemma buildWithRetries_built rnd k cache chain k' :
  buildWithRetries rnd k cache = (Built chain, k') →
  isChain chain ∧ ∀ w, w ∈ chain → w ∈ cache.
Proof.
  unfold buildWithRetries.
  destruct (tryBuildChain rnd k cache 5000) as [[chain1| |] k1] eqn:Htry.
  - intros [= <- <-]. by apply tryBuildChain_built in Htry.
  - apply retry_built.
  - done.
Qed.

(** With at least one word in the dictionary no call throws: each attempt
    either completes a chain or is given up, and the budget runs out in
    [null]. *)
Lemma attempts_nonempty rnd words byFirst maxTries : ∀ k,
  words ≠ [] → (attempts rnd words byFirst maxTries k).1 ≠ BuildTypeError.
Proof.
  induction maxTries as [|t IH]; intros k Hne; cbn [attempts]; [done|].
  destruct (words !! _) as [w1|] eqn:Hw1.
  - destruct (walk rnd byFirst 4 1 (S k) [w1] {[w1]}) as [[chain1| |] k1] eqn:Hwalk;
      [done|by apply IH|].
    exfalso.
    by eapply (walk_no_TypeError rnd byFirst 4 1 (S k) [w1] {[w1]} k1); [|lia|].
  - apply lookup_ge_None in Hw1.
    assert (0 < length words) by (destruct words; [done|simpl; lia]).
    pose proof (randIndex_lt rnd k (length words)). lia.
Qed.

Lemma tryBuildChain_nonempty rnd k words maxTries :
  words ≠ [] → (tryBuildChain rnd k words maxTries).1 ≠ BuildTypeError.
Proof. apply attempts_nonempty. Qed.

Lemma retry_nonempty rnd cache left : ∀ k,
  cache ≠ [] → (retry rnd cache left k).1 ≠ BuildTypeError.
Proof.
  induction left as [|left IH]; intros k Hne; cbn [retry]; [done|].
  pose proof (shuffle_Permutation rnd k cache) as Hperm.
  destruct (shuffle rnd k cache) as [a k1]. simpl in Hperm.
  assert (a ≠ []) as Ha.
  { intros ->. by apply Permutation_nil_l in Hperm. }
  pose proof (tryBuildChain_nonempty rnd k1 a 5000 Ha) as Htry.
  destruct (tryBuildChain rnd k1 a 5000) as [[chain1| |] k2]; [done|by apply IH|done].
Qed.

Lemma buildWithRetries_nonempty rnd k cache :
  cache ≠ [] → (buildWithRetries rnd k cache).1 ≠ BuildTypeError.
Proof.
  intros Hne. unfold buildWithRetries.
  pose proof (tryBuildChain_nonempty rnd k cache 5000 Hne) as Htry.
  destruct (tryBuildChain rnd k cache 5000) as [[chain1| |] k1];
    [done|by apply retry_nonempty|done].
Qed.

(** When all four calls return [null], [newGame] says so and changes
    nothing. *)
Lemma newGame_could_not_build rnd k cache w :
  (buildWithRetries rnd k cache).1 = BuildNull →
  Game.newGame rnd k cache w
  = Game.mkRes (Some tt) w
      [Game.SetStatus Game.MsgBuilding; Game.SetStatus Game.MsgCouldNotBuild].
Proof. intros Hnull. unfold Game.newGame. by rewrite Hnull. Qed.

(** C1: every chain that [tryBuildChain] returns has exactly five words, all
    taken from the dictionary and pairwise distinct, and for each [i] in 0..3
    the letter at index 4 of word [i] is the letter at index 0 of word
    [i+1]. *)
Theorem tryBuildChain_returns_chain rnd k words maxTries chain k' :
  tryBuildChain rnd k words maxTries = (Built chain, k') →
  length chain = 5
  ∧ (∀ w, w ∈ chain → w ∈ words)
  ∧ NoDup chain
  ∧ ∀ i, i < 4 → ∃ a b,
      chain !! i = Some a ∧ chain !! (i + 1) = Some b ∧ charAt a 4 = charAt b 0.
Proof.
  intros Htry. apply tryBuildChain_built in Htry as [(Hlen & Hnd & Hlink) Hsub].
  split_and!; [done..|].
  intros i Hi.
  destruct (lookup_lt_is_Some_2 chain i) as [a Ha]; [lia|].
  destruct (lookup_lt_is_Some_2 chain (i + 1)) as [b Hb]; [lia|].
  exists a, b. split_and!; [done..|].
  eapply Hlink; [done|]. by rewrite Nat.add_1_r in Hb.
Qed.

Lemma tryBuildChain_returns_chain_witness :
  let chain := ["SOUND"; "DRIFT"; "TRACE"; "EAGER"; "RADIO"] in
  length chain = 5
  ∧ (∀ w, w ∈ chain → w ∈ ["RADIO"; "EAGER"; "SOUND"; "TRACE"; "DRIFT"; "SOUND"])
  ∧ NoDup chain
  ∧ ∀ i, i < 4 → ∃ a b,
      chain !! i = Some a ∧ chain !! (i + 1) = Some b ∧ charAt a 4 = charAt b 0.
Proof.
  apply (tryBuildChain_returns_chain (λ _, 2) 0
           ["RADIO"; "EAGER"; "SOUND"; "TRACE"; "DRIFT"; "SOUND"] 5000 _ 5).
  vm_compute. reflexivity.
Defined.

(** C9: on an empty dictionary the first attempt throws a TypeError instead of
    returning [null], so [newGame] neither retries nor reports that no chain
    could be built. *)
Theorem tryBuildChain_empty_dictionary rnd k maxTries w :
  (tryBuildChain rnd k [] (S maxTries)).1 = BuildTypeError
  ∧ Game.val (Game.newGame rnd k [] w) = None
  ∧ Game.out (Game.newGame rnd k [] w) = [Game.SetStatus Game.MsgBuilding].
Proof. done. Qed.

End BuilderFacts.

(** * Properties of the game *)

Section MonadFacts.

Import Game.

Lemma bind_ret {A B} (a : A) (f : A → M B) w : bind (ret a) f w = f a w.
Proof. unfold bind, ret. simpl. by destruct (f a w). Qed.

Lemma bind_getGame {B} (f : GameState → M B) w :
  bind getGame f w = f (game w) w.
Proof. unfold bind, getGame. simpl. by destruct (f (game w) w). Qed.

Lemma bind_setGame {B} h (f : unit → M B) w :
  bind (setGame h) f w = f tt {| game := h (game w); sleeping := sleeping w |}.
Proof. unfold bind, setGame. simpl. by destruct (f tt _). Qed.

Lemma st_bind {A B} (m : M A) (f : A → M B) w :
  st (bind m f w) =
  match val (m w) with
  | Some a => st (f a (st (m w)))
  | None => st (m w)
  end.
Proof. unfold bind. by destruct (val (m w)). Qed.

Lemma keepsWorld_keepsGame {A} (m : M A) : keepsWorld m → keepsGame m.
Proof. intros H w. by rewrite H. Qed.

Lemma keepsWorld_ret {A} (a : A) : keepsWorld (ret a).
Proof. done. Qed.

Lemma keepsWorld_throw {A} : keepsWorld (@throw A).
Proof. done. Qed.

Lemma keepsWorld_emit s : keepsWorld (emit s).
Proof. done. Qed.

Lemma keepsWorld_getGame : keepsWorld getGame.
Proof. done. Qed.

Lemma keepsWorld_deref {A} (x : option A) : keepsWorld (deref x).
Proof. by destruct x. Qed.

Lemma keepsWorld_bind {A B} (m : M A) (f : A → M B) :
  keepsWorld m → (∀ a, keepsWorld (f a)) → keepsWorld (bind m f).
Proof.
  intros Hm Hf w. rewrite st_bind, Hm. destruct (val (m w)); [apply Hf|done].
Qed.

Lemma keepsWorld_forLoop count body : ∀ from,
  (∀ i, keepsWorld (body i)) → keepsWorld (forLoop count from body).
Proof.
  induction count as [|count IH]; intros from Hbody; simpl.
  - apply keepsWorld_ret.
  - apply keepsWorld_bind; [apply Hbody|]. intros _. by apply IH.
Qed.

Lemma keepsWorld_setTile el ch cls : keepsWorld (setTile el ch cls).
Proof.
  apply keepsWorld_bind; [apply keepsWorld_deref|]. intros t. apply keepsWorld_emit.
Qed.

Lemma keepsWorld_shakeWord el : keepsWorld (shakeWord el).
Proof.
  apply keepsWorld_bind; [apply keepsWorld_deref|]. intros t. apply keepsWorld_emit.
Qed.

Lemma keepsWorld_paintCurrent : keepsWorld paintCurrent.
Proof.
  unfold paintCurrent.
  apply keepsWorld_bind; [apply keepsWorld_getGame|]; intros g.
  apply keepsWorld_bind; [apply keepsWorld_deref|]; intros el.
  repeat (apply keepsWorld_bind; [|intros _]);
    apply keepsWorld_forLoop; intros i; try apply keepsWorld_setTile.
  apply keepsWorld_bind; [apply keepsWorld_deref|]; intros t.
  apply keepsWorld_setTile.
Qed.

Lemma keepsWorld_showStartHint : keepsWorld showStartHint.
Proof.
  unfold showStartHint.
  apply keepsWorld_bind; [apply keepsWorld_getGame|]; intros g.
  apply keepsWorld_bind; [apply keepsWorld_deref|]; intros el.
  apply keepsWorld_bind; [apply keepsWorld_deref|]; intros t.
  apply keepsWorld_setTile.
Qed.

Lemma keepsGame_bind {A B} (m : M A) (f : A → M B) :
  keepsGame m → (∀ a, keepsGame (f a)) → keepsGame (bind m f).
Proof.
  intros Hm Hf w. rewrite st_bind.
  destruct (val (m w)); [by rewrite Hf, Hm|apply Hm].
Qed.

Lemma keepsGame_completeWord : keepsGame completeWord.
Proof.
  intros w. unfold completeWord, async. cbn [st].
  rewrite bind_getGame.
  by destruct (wordElement (idx (game w))) as [el|].
Qed.

(** Once [m] has run, a rest that keeps the game does not matter to it. *)
Lemma game_bind_keeps {A B} (m : M A) (f : A → M B) w :
  (∀ a, keepsGame (f a)) → game (st (bind m f w)) = game (st (m w)).
Proof. intros Hf. rewrite st_bind. destruct (val (m w)); [apply Hf|done]. Qed.

Lemma bind_assoc {A B C} (m : M A) (f : A → M B) (h : B → M C) w :
  bind (bind m f) h w = bind m (λ a, bind (f a) h) w.
Proof.
  unfold bind. destruct (val (m w)) as [a|]; simpl; [|done].
  destruct (val (f a (st (m w)))) as [b|]; simpl; [|done].
  by rewrite app_assoc.
Qed.

Lemma st_bind_emit {B} s (f : unit → M B) w :
  st (bind (emit s) f w) = st (f tt w).
Proof. by rewrite st_bind. Qed.


(** A rest that keeps the world does not matter to the world either. *)
Lemma st_bind_keeps {A B} (m : M A) (f : A → M B) w :
  (∀ a, keepsWorld (f a)) → st (bind m f w) = st (m w).
Proof. intros Hf. rewrite st_bind. destruct (val (m w)); [apply Hf|done]. Qed.

Lemma val_bind {A B} (m : M A) (f : A → M B) w :
  val (bind m f w) =
  match val (m w) with
  | Some a => val (f a (st (m w)))
  | None => None
  end.
Proof. unfold bind. by destruct (val (m w)). Qed.

Lemma val_forLoop count body w : ∀ from,
  (∀ i, from ≤ i < from + count →
     val (body i w) = Some tt ∧ st (body i w) = w) →
  val (forLoop count from body w) = Some tt.
Proof.
  induction count as [|count IH]; intros from Hbody; cbn [forLoop]; [done|].
  rewrite val_bind. destruct (Hbody from) as [-> ->]; [lia|].
  apply IH. intros i Hi. apply Hbody. lia.
Qed.

Lemma val_setTile w pos ch cls w0 :
  pos < 5 → val (setTile (tileOf w pos) ch cls w0) = Some tt.
Proof.
  intros Hpos%Nat.ltb_lt. unfold setTile, tileOf. by rewrite Hpos.
Qed.

(** Painting succeeds when the current word exists and the letters fit. *)
Lemma val_paintCurrent w target :
  idx (game w) < 5 →
  words (game w) !! idx (game w) = Some target →
  greenCount (game w) + String.length (typed (game w)) ≤ 5 →
  val (paintCurrent w) = Some tt.
Proof.
  intros Hidx%Nat.ltb_lt Htarget Hfit. unfold paintCurrent.
  rewrite bind_getGame. unfold wordElement. rewrite Hidx. cbn [deref].
  rewrite bind_ret, Htarget. cbn [deref].
  rewrite val_bind, val_forLoop.
  - rewrite keepsWorld_forLoop.
    2:{ intros i. apply keepsWorld_bind; [apply keepsWorld_ret|].
        intros t. apply keepsWorld_setTile. }
    rewrite val_bind, val_forLoop.
    + rewrite keepsWorld_forLoop by (intros i; apply keepsWorld_setTile).
      apply val_forLoop. intros i Hi.
      split; [apply val_setTile; lia|apply keepsWorld_setTile].
    + intros i Hi. split; [apply val_setTile; lia|apply keepsWorld_setTile].
  - intros i Hi. rewrite bind_ret.
    split; [apply val_setTile; lia|apply keepsWorld_setTile].
Qed.

End MonadFacts.

Section KeyFacts.

Import Builder Game.

Lemma onKeyDown_inactive key w :
  active (game w) = false → onKeyDown key w = mkRes (Some tt) w [].
Proof. intros H. unfold onKeyDown. by rewrite bind_getGame, H. Qed.

(** Enter on too few letters. *)
Lemma onKeyDown_enter_short w :
  active (game w) = true →
  greenCount (game w) + String.length (typed (game w)) < 5 →
  st (onKeyDown "Enter" w) = w
  ∧ out (onKeyDown "Enter" w) =
      match wordElement (idx (game w)) with
      | Some el => [SetStatus MsgTooShort; ShakeWord el]
      | None => [SetStatus MsgTooShort]
      end.
Proof.
  intros Hact Hlt. unfold onKeyDown. rewrite bind_getGame, Hact. cbn [negb].
  rewrite bool_decide_eq_true_2 by done.
  apply Nat.ltb_lt in Hlt. rewrite Hlt.
  by destruct (wordElement (idx (game w))).
Qed.

(** Enter on enough letters: the game it leaves. *)
Lemma onKeyDown_enter_full w :
  active (game w) = true →
  5 ≤ greenCount (game w) + String.length (typed (game w)) →
  game (st (onKeyDown "Enter" w)) =
  match scan (typed (game w)) (words (game w) !! idx (game w))
             (greenCount (game w)) (String.length (typed (game w))) 0
             (greenCount (game w)) with
  | Some newGreens =>
      {| words := words (game w); idx := idx (game w); typed := "";
         greenCount := newGreens; active := active (game w) |}
  | None => game w
  end.
Proof.
  intros Hact Hge. unfold onKeyDown. rewrite bind_getGame, Hact. cbn [negb].
  rewrite bool_decide_eq_true_2 by done.
  apply Nat.ltb_ge in Hge. rewrite Hge.
  destruct (scan _ _ _ _ _ _) as [newGreens|]; cbn [deref]; [|done].
  rewrite bind_ret. unfold setGreenCount, setTyped.
  rewrite !bind_setGame. rewrite game_bind_keeps.
  - rewrite keepsWorld_paintCurrent. simpl. by rewrite Hact.
  - intros _ w'. rewrite bind_getGame.
    destruct (5 <=? greenCount (game w')); [apply keepsGame_completeWord|].
    apply keepsWorld_keepsGame.
    apply keepsWorld_bind; [apply keepsWorld_deref|]; intros word.
    apply keepsWorld_bind; [apply keepsWorld_emit|]; intros _.
    apply keepsWorld_shakeWord.
Qed.

Lemma onKeyDown_backspace w :
  active (game w) = true →
  game (st (onKeyDown "Backspace" w)) =
  if 0 <? String.length (typed (game w))
  then {| words := words (game w); idx := idx (game w);
          typed := dropLast (typed (game w));
          greenCount := greenCount (game w); active := active (game w) |}
  else game w.
Proof.
  intros Hact. unfold onKeyDown. rewrite bind_getGame, Hact. cbn [negb].
  rewrite bool_decide_eq_false_2 by done.
  rewrite bool_decide_eq_true_2 by done.
  destruct (0 <? _); [|done].
  unfold setTyped. rewrite bind_setGame.
  rewrite keepsWorld_paintCurrent. simpl. by rewrite Hact.
Qed.

Lemma isLetterKey_inv key :
  isLetterKey key = true → key ≠ "Enter" ∧ key ≠ "Backspace".
Proof. destruct key as [|c [|c' key]]; done. Qed.

Lemma onKeyDown_letter key w :
  active (game w) = true → isLetterKey key = true →
  game (st (onKeyDown key w)) =
  if 5 <=? greenCount (game w) + String.length (typed (game w))
  then game w
  else {| words := words (game w); idx := idx (game w);
          typed := typed (game w) +:+ toUpperCase key;
          greenCount := greenCount (game w); active := active (game w) |}.
Proof.
  intros Hact Hkey. destruct (isLetterKey_inv key Hkey) as [HnE HnB].
  unfold onKeyDown. rewrite bind_getGame, Hact. cbn [negb].
  rewrite !bool_decide_eq_false_2 by done. rewrite Hkey.
  destruct (5 <=? _); [done|].
  unfold setTyped. rewrite bind_setGame.
  rewrite keepsWorld_paintCurrent. simpl. by rewrite Hact.
Qed.

Lemma onKeyDown_other key w :
  key ≠ "Enter" → key ≠ "Backspace" → isLetterKey key = false →
  st (onKeyDown key w) = w.
Proof.
  intros HnE HnB Hkey. unfold onKeyDown. rewrite bind_getGame.
  destruct (active (game w)); [|done]. cbn [negb].
  rewrite !bool_decide_eq_false_2 by done. by rewrite Hkey.
Qed.

Lemma length_dropLast s : String.length (dropLast s) = String.length s - 1.
Proof.
  unfold dropLast.
  assert (∀ n t, n ≤ String.length t →
    String.length (String.substring 0 n t) = n) as Hsub.
  { induction n as [|n IH]; intros [|c t] Hn; simpl in *; try done; try lia.
    f_equal. apply IH. lia. }
  apply Hsub. lia.
Qed.

Lemma length_append s t :
  String.length (s +:+ t) = String.length s + String.length t.
Proof. induction s as [|c s IH]; simpl; [done|]. by rewrite IH. Qed.

Lemma length_toUpperCase s : String.length (toUpperCase s) = String.length s.
Proof. induction s as [|c s IH]; simpl; [done|]. by rewrite IH. Qed.

Lemma isLetterKey_length key : isLetterKey key = true → String.length key = 1.
Proof. destruct key as [|c [|c' key]]; done. Qed.

Lemma substring_snoc s : ∀ c,
  ∃ d, String c s
       = String.substring 0 (String.length s) (String c s) +:+ String d "".
Proof.
  induction s as [|c' s IH]; intros c; [by exists c|].
  destruct (IH c') as [d Hd]. exists d.
  cbn [String.length].
  change (String.substring 0 (S (String.length s)) (String c (String c' s)))
    with (String c (String.substring 0 (String.length s) (String c' s))).
  change (String c (String c' s) =
          String c (String.substring 0 (String.length s) (String c' s)
                    +:+ String d "")).
  by f_equal.
Qed.

Lemma dropLast_snoc s :
  s ≠ "" → ∃ c, s = dropLast s +:+ String c "".
Proof.
  destruct s as [|c s]; [done|]. intros _. unfold dropLast.
  cbn [String.length]. replace (S (String.length s) - 1) with (String.length s) by lia.
  apply substring_snoc.
Qed.

(** The comparison loop counts the matching letters from [i] on and stops at
    the first one that differs. *)
Lemma scan_defined typed t gc fuel : ∀ i ng,
  ∃ n, scan typed (Some t) gc fuel i ng = Some (ng + n)
    ∧ n ≤ fuel
    ∧ (∀ j, j < n → charAt typed (i + j) = charAt t (gc + (i + j)))
    ∧ (n < fuel → charAt typed (i + n) ≠ charAt t (gc + (i + n))).
Proof.
  induction fuel as [|fuel IH]; intros i ng; cbn [scan].
  - exists 0. rewrite Nat.add_0_r. split_and!; [done|lia|lia|lia].
  - case_bool_decide as Heq.
    + destruct (IH (S i) (S ng)) as (n & Hscan & Hle & Hmatch & Hstop).
      exists (S n). split_and!.
      * rewrite Hscan. f_equal. lia.
      * lia.
      * intros [|j] Hj; [by rewrite Nat.add_0_r|].
        replace (i + S j) with (S i + j) by lia. apply Hmatch. lia.
      * intros Hn. replace (i + S n) with (S i + n) by lia. apply Hstop. lia.
    + exists 0. rewrite !Nat.add_0_r. split_and!; [done|lia|lia|done].
Qed.

Lemma scan_bounds typed target gc fuel : ∀ i ng m,
  scan typed target gc fuel i ng = Some m → ng ≤ m ≤ ng + fuel.
Proof.
  induction fuel as [|fuel IH]; intros i ng m; cbn [scan].
  - intros [= <-]. lia.
  - destruct target as [t|]; [|done]. case_bool_decide.
    + intros Hscan%IH. lia.
    + intros [= <-]. lia.
Qed.

(** C2: on an active game with [greenCount + typed.length >= 5], Enter adds to
    [greenCount] the number of leading letters of [typed] that equal the
    target's letters from position [greenCount] on, counted up to the first
    mismatch, and empties [typed] whatever that number is. *)
Theorem submit_confirms_leading_matches w target :
  active (game w) = true →
  words (game w) !! idx (game w) = Some target →
  5 ≤ greenCount (game w) + String.length (typed (game w)) →
  ∃ n, leadingMatches (typed (game w)) target (greenCount (game w)) n
    ∧ game (st (onKeyDown "Enter" w)) =
        {| words := words (game w); idx := idx (game w); typed := "";
           greenCount := greenCount (game w) + n; active := active (game w) |}.
Proof.
  intros Hact Htarget Hge. rewrite onKeyDown_enter_full by done. rewrite Htarget.
  destruct (scan_defined (typed (game w)) target (greenCount (game w))
              (String.length (typed (game w))) 0 (greenCount (game w)))
    as (n & -> & Hle & Hmatch & Hstop).
  exists n. split; [|done]. split_and!; [done|..].
  - intros j Hj. by apply Hmatch.
  - intros Hn. by apply Hstop.
Qed.

(** C4: on an active game with [greenCount + typed.length < 5], Enter leaves
    the game and the pending completions as they are, and all it sends is
    the "Too short." status and the shake of the current word. *)
Theorem short_submit_changes_nothing w :
  active (game w) = true →
  greenCount (game w) + String.length (typed (game w)) < 5 →
  st (onKeyDown "Enter" w) = w
  ∧ (∀ s, s ∈ out (onKeyDown "Enter" w) →
       s = SetStatus MsgTooShort ∨ s = ShakeWord (idx (game w)))
  ∧ (idx (game w) < 5 →
       out (onKeyDown "Enter" w)
       = [SetStatus MsgTooShort; ShakeWord (idx (game w))]).
Proof.
  intros Hact Hlt.
  destruct (onKeyDown_enter_short w Hact Hlt) as [Hst Hout].
  rewrite Hout. unfold wordElement. split_and!; [done|..].
  - intros s Hs. destruct (idx (game w) <? 5).
    + apply elem_of_cons in Hs as [->|Hs]; [by left|].
      apply list_elem_of_singleton in Hs as ->. by right.
    + apply list_elem_of_singleton in Hs as ->. by left.
  - intros Hidx%Nat.ltb_lt. by rewrite Hidx.
Qed.

(** C7: Backspace never changes [greenCount]; on an inactive game or an
    empty [typed] it changes nothing and sends nothing, and otherwise all it
    changes is [typed], which loses its last character. *)
Theorem backspace_only_shrinks_typed w :
  let g := game w in
  let g' := game (st (onKeyDown "Backspace" w)) in
  greenCount g' = greenCount g
  ∧ (active g = false ∨ typed g = "" →
       st (onKeyDown "Backspace" w) = w ∧ out (onKeyDown "Backspace" w) = [])
  ∧ (active g = true → typed g ≠ "" →
       sleeping (st (onKeyDown "Backspace" w)) = sleeping w
       ∧ words g' = words g ∧ idx g' = idx g ∧ active g' = active g
       ∧ ∃ c, typed g = typed g' +:+ String c "").
Proof.
  cbn zeta. destruct (active (game w)) eqn:Hact.
  - rewrite onKeyDown_backspace by done. split_and!.
    + by destruct (0 <? _).
    + intros [?| Hempty]; [done|].
      unfold onKeyDown. rewrite bind_getGame, Hact, Hempty. done.
    + intros _ Hne.
      destruct (typed (game w)) as [|c s] eqn:Htyped; [done|]. cbn [String.length Nat.ltb Nat.leb].
      split_and!; try done.
      * unfold onKeyDown. rewrite bind_getGame, Hact, Htyped. cbn [negb].
        rewrite bool_decide_eq_false_2 by done.
        rewrite bool_decide_eq_true_2 by done.
        cbn [String.length Nat.ltb Nat.leb]. unfold setTyped.
        rewrite bind_setGame. by rewrite keepsWorld_paintCurrent.
      * by apply dropLast_snoc.
  - rewrite onKeyDown_inactive by done. by split_and!.
Qed.

(** What any key leaves alone, and what it can only move one way. *)
Lemma onKeyDown_frame key w :
  let g := game w in
  let g' := game (st (onKeyDown key w)) in
  words g' = words g ∧ idx g' = idx g ∧ active g' = active g
  ∧ greenCount g ≤ greenCount g'
  ∧ (key ≠ "Enter" → greenCount g' = greenCount g)
  ∧ (greenCount g + String.length (typed g) ≤ 5 →
     greenCount g' + String.length (typed g') ≤ 5).
Proof.
  cbn zeta. destruct (active (game w)) eqn:Hact;
    [|rewrite onKeyDown_inactive by done; by split_and!].
  destruct (decide (key = "Enter")) as [->|HnE].
  - destruct (decide (greenCount (game w) + String.length (typed (game w)) < 5))
      as [Hlt|Hge].
    + destruct (onKeyDown_enter_short w Hact Hlt) as [-> _]. by split_and!.
    + rewrite onKeyDown_enter_full by (done || lia).
      destruct (scan _ _ _ _ _ _) as [m|] eqn:Hscan; [|by split_and!].
      apply scan_bounds in Hscan. simpl. split_and!; try done; lia.
  - destruct (decide (key = "Backspace")) as [->|HnB].
    + rewrite onKeyDown_backspace by done.
      destruct (0 <? _); [|by split_and!]. simpl.
      rewrite length_dropLast. split_and!; try done; lia.
    + destruct (isLetterKey key) eqn:Hkey.
      * rewrite onKeyDown_letter by done.
        destruct (5 <=? _) eqn:Hfull; [by split_and!|].
        apply Nat.leb_gt in Hfull. simpl.
        rewrite length_append, length_toUpperCase, (isLetterKey_length key Hkey).
        split_and!; try done; lia.
      * rewrite onKeyDown_other by done. by split_and!.
Qed.

(** The world after the suspended part of [completeWord] has run. *)
Lemma completeWordResume_st w :
  length (words (game w)) = 5 →
  st (completeWordResume w) =
  {| game :=
       if idx (game w) + 1 <? 5
       then {| words := words (game w); idx := idx (game w) + 1; typed := "";
               greenCount := 1; active := active (game w) |}
       else {| words := words (game w); idx := idx (game w) + 1; typed := "";
               greenCount := 0; active := false |};
     sleeping := sleeping w |}.
Proof.
  intros Hlen. unfold completeWordResume, setIdx, setTyped, setGreenCount.
  rewrite bind_getGame, !bind_setGame, bind_getGame. cbn [game idx words sleeping].
  destruct (idx (game w) + 1 <? 5) eqn:Hnext.
  - destruct (lookup_lt_is_Some_2 (words (game w)) (idx (game w) + 1))
      as [target Htarget]; [apply Nat.ltb_lt in Hnext; lia|].
    rewrite Htarget. cbn [deref]. rewrite bind_assoc, bind_ret, st_bind_emit.
    unfold wordElement. rewrite Hnext. cbn [deref]. rewrite !bind_ret.
    unfold setTile, tileOf. cbn [Nat.ltb Nat.leb deref].
    rewrite bind_assoc, bind_ret, st_bind_emit, bind_setGame.
    by rewrite keepsWorld_paintCurrent.
  - rewrite st_bind_emit. unfold setActive. by rewrite bind_setGame.
Qed.

Lemma startGame_st chain w :
  st (startGame chain w) =
  {| game := {| words := chain; idx := 0; typed := ""; greenCount := 1;
                active := true |};
     sleeping := sleeping w |}.
Proof.
  unfold startGame, setWords, setIdx, setTyped, setGreenCount, setActive.
  rewrite st_bind_emit, !bind_setGame. rewrite st_bind_keeps.
  - by rewrite keepsWorld_showStartHint.
  - intros _.
    apply keepsWorld_bind; [apply keepsWorld_paintCurrent|]; intros _.
    apply keepsWorld_bind; [apply keepsWorld_emit|]; intros _.
    apply keepsWorld_bind; [apply keepsWorld_getGame|]; intros g.
    apply keepsWorld_bind; [apply keepsWorld_deref|]; intros first.
    apply keepsWorld_emit.
Qed.

Lemma newGame_st rnd k cache w :
  st (newGame rnd k cache w) =
  match (buildWithRetries rnd k cache).1 with
  | Built chain =>
      {| game := {| words := chain; idx := 0; typed := ""; greenCount := 1;
                    active := true |};
         sleeping := sleeping w |}
  | _ => w
  end.
Proof.
  unfold newGame. rewrite st_bind_emit.
  destruct (buildWithRetries rnd k cache).1; [apply startGame_st|done..].
Qed.

(** Every handler keeps the invariant. *)
Lemma step_invariant w e : invariant w → invariant (step w e).
Proof.
  intros Hinv. pose proof Hinv as (Hbound & Hwords & Hidx). unfold step.
  destruct e as [key| |rnd k cache]; cbn [handle].
  - destruct (onKeyDown_frame key w) as (Hw & Hi & Ha & _ & _ & Hb).
    destruct (decide (active (game w) = true)) as [Hact|Hact%not_true_is_false].
    + split_and!; [by apply Hb| |].
      * intros _. rewrite Hw. apply Hwords. by left.
      * intros _. rewrite Hi. by apply Hidx.
    + by rewrite onKeyDown_inactive.
  - unfold wake. destruct (sleeping w) as [|n] eqn:Hsleep; [by cbn [st]|].
    rewrite completeWordResume_st by (apply Hwords; lia). cbn [game sleeping].
    assert (length (words (game w)) = 5) as Hlen by (apply Hwords; lia).
    unfold invariant.
    destruct (idx (game w) + 1 <? 5) eqn:Hnext;
      cbn [game sleeping words idx typed greenCount active String.length];
      split_and!; try done; try lia.
    intros _. by apply Nat.ltb_lt.
  - rewrite newGame_st.
    destruct (buildWithRetries rnd k cache) as [[chain| |] k'] eqn:Hbuild;
      cbn [fst]; [|done..].
    apply buildWithRetries_built in Hbuild as [(Hlen & _) _].
    unfold invariant.
    cbn [game sleeping words idx typed greenCount active String.length].
    split_and!; try done; lia.
Qed.

Lemma run_invariant es : ∀ w, invariant w → invariant (run es w).
Proof.
  induction es as [|e es IH]; intros w Hw; [done|].
  apply IH. by apply step_invariant.
Qed.

Lemma reachable_invariant w : reachable w → invariant w.
Proof.
  intros [es ->]. apply run_invariant. unfold invariant. simpl.
  split_and!; [lia| |done].
  intros [Hact|Hsleep]; [done|]. by apply Nat.lt_irrefl in Hsleep.
Qed.

(** Enter that confirms the fifth letter calls [completeWord], which then
    waits for its [sleep] to elapse. *)
Lemma onKeyDown_enter_complete w target :
  active (game w) = true →
  idx (game w) < 5 →
  words (game w) !! idx (game w) = Some target →
  5 ≤ greenCount (game w) + String.length (typed (game w)) →
  greenCount (game (st (onKeyDown "Enter" w))) = 5 →
  st (onKeyDown "Enter" w) =
  {| game := {| words := words (game w); idx := idx (game w); typed := "";
                greenCount := 5; active := true |};
     sleeping := S (sleeping w) |}.
Proof.
  intros Hact Hidx Htarget Hge Hfive.
  rewrite onKeyDown_enter_full in Hfive by done. revert Hfive.
  unfold onKeyDown. rewrite bind_getGame, Hact. cbn [negb].
  rewrite bool_decide_eq_true_2 by done.
  apply Nat.ltb_ge in Hge. rewrite Hge, Htarget.
  destruct (scan_defined (typed (game w)) target (greenCount (game w))
              (String.length (typed (game w))) 0 (greenCount (game w)))
    as (n & -> & _). cbn [greenCount deref]. intros ->.
  rewrite bind_ret. unfold setGreenCount, setTyped. rewrite !bind_setGame.
  cbn [game sleeping words idx typed greenCount active].
  rewrite st_bind, (val_paintCurrent _ target), keepsWorld_paintCurrent,
    bind_getGame by (cbn; done || lia).
  cbn [game greenCount Nat.leb]. unfold completeWord, async. cbn [st].
  rewrite bind_getGame. cbn [game idx]. unfold wordElement.
  apply Nat.ltb_lt in Hidx. rewrite Hidx. cbn [deref]. rewrite bind_ret.
  rewrite st_bind_emit. cbn. by rewrite Hact.
Qed.






(** While a completion is pending, letters and Backspace do nothing. *)
Lemma letter_during_transition key w :
  isLetterKey key = true →
  greenCount (game w) = 5 → typed (game w) = "" →
  onKeyDown key w = mkRes (Some tt) w [].
Proof.
  intros Hkey Hgc Htyped. destruct (isLetterKey_inv key Hkey) as [HnE HnB].
  unfold onKeyDown. rewrite bind_getGame.
  destruct (active (game w)); [|done]. cbn [negb].
  rewrite !bool_decide_eq_false_2 by done. by rewrite Hkey, Hgc, Htyped.
Qed.

Lemma backspace_during_transition w :
  typed (game w) = "" → onKeyDown "Backspace" w = mkRes (Some tt) w [].
Proof.
  intros Htyped. unfold onKeyDown. rewrite bind_getGame.
  destruct (active (game w)); [|done]. cbn [negb].
  rewrite bool_decide_eq_false_2 by done.
  rewrite bool_decide_eq_true_2 by done. by rewrite Htyped.
Qed.

(** Enter is not held back: it calls [completeWord] once more. *)
Lemma enter_during_transition w :
  active (game w) = true → idx (game w) < 5 →
  length (words (game w)) = 5 →
  greenCount (game w) = 5 → typed (game w) = "" →
  game (st (onKeyDown "Enter" w)) = game w
  ∧ sleeping (st (onKeyDown "Enter" w)) = S (sleeping w).
Proof.
  intros Hact Hidx Hlen Hgc Htyped.
  destruct (lookup_lt_is_Some_2 (words (game w)) (idx (game w)))
    as [target Htarget]; [lia|].
  rewrite (onKeyDown_enter_complete w target); try done.
  - cbn [game sleeping]. split; [|done].
    destruct (game w) as [ws i t g a]. simpl in *. by subst.
  - rewrite Hgc. lia.
  - rewrite onKeyDown_enter_full by (done || rewrite Hgc; lia).
    by rewrite Htyped, Hgc.
Qed.



(** C5: a second Enter during the delay of a word completion is not ignored:
    it suspends a second completion, and when both have run the game is two
    words further, the word in between never played. *)
Theorem submit_during_transition_skips_word :
  let w1 := run (map KeyDown ["m"; "a"; "r"; "t"; "Enter"]) sampleStart in
  let w2 := step w1 (KeyDown "Enter") in
  idx (game w1) = 0 ∧ greenCount (game w1) = 5 ∧ sleeping w1 = 1
  ∧ game w2 = game w1 ∧ sleeping w2 = 2
  ∧ idx (game (run [Wake] w1)) = 1
  ∧ idx (game (run [Wake; Wake] w2)) = 2
  ∧ active (game (run [Wake; Wake] w2)) = true.
Proof. vm_compute. by split_and!. Qed.

(** C6, as the code has it: [newGame] installs no words other than a chain
    that the builder returned, which is five distinct linked words of the
    dictionary; when the builder returns none, the page stays as it was. *)
Theorem newGame_installs_built_chain rnd k cache w :
  let w' := st (newGame rnd k cache w) in
  w' = w
  ∨ ((buildWithRetries rnd k cache).1 = Built (words (game w'))
     ∧ isChain (words (game w'))
     ∧ (∀ x, x ∈ words (game w') → x ∈ cache)
     ∧ idx (game w') = 0 ∧ greenCount (game w') = 1
     ∧ typed (game w') = "" ∧ active (game w') = true).
Proof.
  cbn zeta. rewrite newGame_st.
  destruct (buildWithRetries rnd k cache) as [[chain| |] k'] eqn:Hbuild;
    cbn [fst]; [right|by left..].
  apply buildWithRetries_built in Hbuild as [Hchain Hsub].
  by split_and!.
Qed.

(** C6 as stated fails: the start of a game checks nothing, and handed words
    that are not a chain it makes them the active game. *)
Lemma startGame_accepts_unlinked_words :
  let bad := ["SOUND"; "DEMAND"; "DRIFT"; "TRACE"; "EAGER"] in
  ¬ isChain bad
  ∧ val (startGame bad world0) = Some tt
  ∧ game (st (startGame bad world0)) =
      {| words := bad; idx := 0; typed := ""; greenCount := 1;
         active := true |}.
Proof.
  split_and!; [|by vm_compute..].
  intros (_ & _ & Hlink).
  by specialize (Hlink 1 "DEMAND" "DRIFT" eq_refl eq_refl).
Qed.

(** C8: in every reachable state [greenCount + typed.length <= 5]; every
    handler keeps it so, and a letter typed when the sum is 5 is dropped
    without any effect. *)
Theorem confirmed_plus_typed_fit w :
  reachable w →
  greenCount (game w) + String.length (typed (game w)) ≤ 5
  ∧ (∀ e, greenCount (game (step w e))
          + String.length (typed (game (step w e))) ≤ 5)
  ∧ (∀ key, isLetterKey key = true →
       greenCount (game w) + String.length (typed (game w)) = 5 →
       onKeyDown key w = mkRes (Some tt) w []).
Proof.
  intros Hinv%reachable_invariant. split_and!.
  - apply Hinv.
  - intros e. by apply step_invariant.
  - intros key Hkey Hfull. destruct (isLetterKey_inv key Hkey) as [HnE HnB].
    unfold onKeyDown. rewrite bind_getGame.
    destruct (active (game w)); [|done]. cbn [negb].
    rewrite !bool_decide_eq_false_2 by done. by rewrite Hkey, Hfull.
Qed.

Lemma confirmed_plus_typed_fit_witness :
  let w := run (map KeyDown ["m"; "x"; "r"; "t"]) sampleStart in
  greenCount (game w) + String.length (typed (game w)) ≤ 5
  ∧ (∀ e, greenCount (game (step w e))
          + String.length (typed (game (step w e))) ≤ 5)
  ∧ (∀ key, isLetterKey key = true →
       greenCount (game w) + String.length (typed (game w)) = 5 →
       onKeyDown key w = mkRes (Some tt) w []).
Proof.
  apply (confirmed_plus_typed_fit
           (run (map KeyDown ["m"; "x"; "r"; "t"]) sampleStart)).
  exists (NewGame (λ _, 0) 0 sampleChain :: map KeyDown ["m"; "x"; "r"; "t"]).
  reflexivity.
Defined.

(** C10: no key changes the current word or lowers [greenCount]; only Enter
    can raise it; a handler that lowers it is a word completion or a new
    game, and a word completion that moves to a next word sets it to 1. *)
Theorem greenCount_monotone_within_word w e :
  let g := game w in
  let g' := game (step w e) in
  (∀ key, e = KeyDown key →
     idx g' = idx g ∧ greenCount g ≤ greenCount g'
     ∧ (key ≠ "Enter" → greenCount g' = greenCount g))
  ∧ (greenCount g' < greenCount g →
     e = Wake ∨ ∃ rnd k cache, e = NewGame rnd k cache)
  ∧ (reachable w → e = Wake → greenCount g' < greenCount g →
     idx g' = idx g + 1 ∧ (idx g' < 5 → greenCount g' = 1)).
Proof.
  cbn zeta. split_and!.
  - intros key ->. unfold step. cbn [handle].
    destruct (onKeyDown_frame key w) as (_ & Hi & _ & Hle & Heq & _).
    by split_and!.
  - intros Hlt. destruct e as [key| |rnd k cache]; [|by left|by right; eauto].
    unfold step in Hlt. cbn [handle] in Hlt.
    destruct (onKeyDown_frame key w) as (_ & _ & _ & Hle & _). lia.
  - intros (_ & Hwords & _)%reachable_invariant ->. unfold step. cbn [handle].
    unfold wake. destruct (sleeping w) as [|n] eqn:Hsleep; cbn [st]; [lia|].
    rewrite completeWordResume_st by (apply Hwords; lia). cbn [game].
    intros _. destruct (idx (game w) + 1 <? 5) eqn:Hnext;
      cbn [idx greenCount]; split; try done.
    apply Nat.ltb_ge in Hnext. lia.
Qed.

Lemma greenCount_monotone_within_word_witness :
  let w := run (map KeyDown ["m"; "x"; "r"; "t"]) sampleStart in
  let e := KeyDown "Enter" in
  let g := game w in
  let g' := game (step w e) in
  (∀ key, e = KeyDown key →
     idx g' = idx g ∧ greenCount g ≤ greenCount g'
     ∧ (key ≠ "Enter" → greenCount g' = greenCount g))
  ∧ (greenCount g' < greenCount g →
     e = Wake ∨ ∃ rnd k cache, e = NewGame rnd k cache)
  ∧ (reachable w → e = Wake → greenCount g' < greenCount g →
     idx g' = idx g + 1 ∧ (idx g' < 5 → greenCount g' = 1)).
Proof.
  apply (greenCount_monotone_within_word
           (run (map KeyDown ["m"; "x"; "r"; "t"]) sampleStart)
           (KeyDown "Enter")).
Defined.

Lemma backspace_only_shrinks_typed_witness :
  let w := run (map KeyDown ["m"; "x"]) sampleStart in
  let g := game w in
  let g' := game (st (onKeyDown "Backspace" w)) in
  greenCount g' = greenCount g
  ∧ (active g = false ∨ typed g = "" →
       st (onKeyDown "Backspace" w) = w ∧ out (onKeyDown "Backspace" w) = [])
  ∧ (active g = true → typed g ≠ "" →
       sleeping (st (onKeyDown "Backspace" w)) = sleeping w
       ∧ words g' = words g ∧ idx g' = idx g ∧ active g' = active g
       ∧ ∃ c, typed g = typed g' +:+ String c "").
Proof.
  apply (backspace_only_shrinks_typed
           (run (map KeyDown ["m"; "x"]) sampleStart)).
Defined.

Lemma newGame_installs_built_chain_witness :
  let w' := st (newGame (λ _, 0) 0 sampleChain world0) in
  w' = world0
  ∨ ((buildWithRetries (λ _, 0) 0 sampleChain).1 = Built (words (game w'))
     ∧ isChain (words (game w'))
     ∧ (∀ x, x ∈ words (game w') → x ∈ sampleChain)
     ∧ idx (game w') = 0 ∧ greenCount (game w') = 1
     ∧ typed (game w') = "" ∧ active (game w') = true).
Proof.
  apply (newGame_installs_built_chain (λ _, 0) 0 sampleChain world0).
Defined.

Lemma submit_confirms_leading_matches_witness :
  let w := run (map KeyDown ["m"; "x"; "r"; "t"]) sampleStart in
  ∃ n, leadingMatches (typed (game w)) "SMART" (greenCount (game w)) n
    ∧ game (st (onKeyDown "Enter" w)) =
        {| words := words (game w); idx := idx (game w); typed := "";
           greenCount := greenCount (game w) + n; active := active (game w) |}.
Proof.
  apply (submit_confirms_leading_matches
           (run (map KeyDown ["m"; "x"; "r"; "t"]) sampleStart) "SMART").
  - vm_compute. reflexivity.
  - vm_compute. reflexivity.
  - vm_compute. lia.
Defined.

Lemma short_submit_changes_nothing_witness :
  let w := run (map KeyDown ["m"; "a"]) sampleStart in
  st (onKeyDown "Enter" w) = w
  ∧ (∀ s, s ∈ out (onKeyDown "Enter" w) →
       s = SetStatus MsgTooShort ∨ s = ShakeWord (idx (game w)))
  ∧ (idx (game w) < 5 →
       out (onKeyDown "Enter" w)
       = [SetStatus MsgTooShort; ShakeWord (idx (game w))]).
Proof.
  apply (short_submit_changes_nothing
           (run (map KeyDown ["m"; "a"]) sampleStart)).
  - vm_compute. reflexivity.
  - vm_compute. lia.
Defined.

(** The two submissions on SMART: M, A, R, T completes the word; M, X, R, T
    confirms the M only and asks for position 3. *)
Example submit_smart_mart :
  game (run (map KeyDown ["m"; "a"; "r"; "t"; "Enter"]) sampleStart)
  = {| words := sampleChain; idx := 0; typed := ""; greenCount := 5;
       active := true |}.
Proof. by vm_compute. Qed.

Example submit_smart_mxrt :
  let r := onKeyDown "Enter" (run (map KeyDown ["m"; "x"; "r"; "t"]) sampleStart) in
  game (st r)
  = {| words := sampleChain; idx := 0; typed := ""; greenCount := 2;
       active := true |}
  ∧ SetStatus (MsgNextLetter 3) ∈ out r.
Proof. vm_compute. split; [done|]. repeat constructor. Qed.

End KeyFacts.

(** * Further properties of the chain builder *)

Section BuilderMore.

Import Builder.

Lemma buildIndex_snoc ws w :
  buildIndexByFirstLetter (ws ++ [w])
  = indexWord (buildIndexByFirstLetter ws) w.
Proof. unfold buildIndexByFirstLetter. by rewrite foldl_snoc. Qed.

Lemma startingWith_snoc l ws w :
  startingWith l (ws ++ [w])
  = startingWith l ws ++ (if decide (charAt w 0 = l) then [w] else []).
Proof.
  unfold startingWith. by rewrite filter_app.
Qed.

Lemma buildIndex_lookup words l :
  buildIndexByFirstLetter words !! l =
  match startingWith l words with
  | [] => None
  | ws => Some ws
  end.
Proof.
  induction words as [|w words IH] using rev_ind; [done|].
  rewrite buildIndex_snoc, startingWith_snoc. unfold indexWord.
  destruct (decide (charAt w 0 = l)) as [Heq|Hne].
  - subst l. rewrite lookup_alter_eq.
    destruct (startingWith (charAt w 0) words) as [|x xs] eqn:Hstart.
    + rewrite bool_decide_eq_false_2 by (rewrite IH; by intros [? ?]).
      by rewrite lookup_insert_eq.
    + rewrite bool_decide_eq_true_2 by (rewrite IH; by eexists).
      by rewrite IH.
  - rewrite lookup_alter_ne by done. rewrite app_nil_r.
    case_bool_decide; [done|]. by rewrite lookup_insert_ne.
Qed.

(** The index holds, under each letter, exactly the words that start with it,
    in the order of the list and as often as they occur there; a letter that
    starts no word has no entry. *)
Theorem buildIndexByFirstLetter_lookup words l :
  buildIndexByFirstLetter words !! l =
  match startingWith l words with
  | [] => None
  | ws => Some ws
  end.
Proof. apply buildIndex_lookup. Qed.

Lemma index_default words l :
  default [] (buildIndexByFirstLetter words !! l) = startingWith l words.
Proof.
  rewrite buildIndex_lookup. by destruct (startingWith l words).
Qed.

Lemma elem_of_startingWith l words w :
  w ∈ startingWith l words ↔ charAt w 0 = l ∧ w ∈ words.
Proof. unfold startingWith. by rewrite list_elem_of_filter. Qed.

Lemma walkInv_size words i chain used :
  walkInv words i chain used → size used = i.
Proof.
  intros (Hlen & Hnd & _ & Hused & _).
  assert (used = list_to_set chain) as ->.
  { apply set_eq. intros w. rewrite Hused. by rewrite elem_of_list_to_set. }
  by rewrite size_list_to_set.
Qed.

(** With an abundant dictionary the inner loop never runs out of
    candidates. *)
Lemma walk_succeeds rnd words fuel : ∀ i k chain used,
  abundant words →
  walkInv words i chain used → 0 < i → i + fuel ≤ 5 →
  ∃ chain', walk rnd (buildIndexByFirstLetter words) fuel i k chain used
            = (WalkDone chain', k + fuel).
Proof.
  induction fuel as [|fuel IH]; intros i k chain used Habund Hinv Hpos Hfuel;
    cbn [walk].
  - exists chain. by rewrite Nat.add_0_r.
  - pose proof Hinv as (Hlen & _ & _ & Hused & Hsub).
    destruct (lookup_lt_is_Some_2 chain (i - 1)) as [prev Hprev]; [lia|].
    rewrite Hprev, index_default.
    assert (prev ∈ words) as Hprevin.
    { apply Hsub. by eapply list_elem_of_lookup_2. }
    destruct (filter _ _) as [|c0 cs] eqn:Hcand.
    + exfalso. specialize (Habund prev Hprevin).
      assert (list_to_set (startingWith (charAt prev 4) words) ⊆ used) as Hall.
      { intros x Hx%elem_of_list_to_set.
        destruct (decide (x ∈ used)) as [|Hfresh]; [done|].
        by destruct (filter_nil_not_elem_of _ _ x Hcand Hfresh). }
      apply subseteq_size in Hall.
      rewrite (walkInv_size _ _ _ _ Hinv) in Hall. lia.
    + assert (∃ pick,
        pick = nth (randIndex rnd k (length (c0 :: cs))) (c0 :: cs) c0
        ∧ pick ∈ c0 :: cs) as (pick & <- & Hpick).
      { eexists. split; [done|].
        apply list_elem_of_In, nth_In, randIndex_lt. simpl. lia. }
      rewrite <- Hcand in Hpick.
      apply list_elem_of_filter in Hpick as [Hfresh Hpick].
      apply elem_of_startingWith in Hpick as [Hadj Hin].
      destruct (IH (S i) (S k) (chain ++ [pick]) (used ∪ {[pick]}))
        as [chain' Hwalk]; [done| |lia|lia|].
      * by eapply walkInv_push.
      * exists chain'. rewrite Hwalk. f_equal. lia.
Qed.

(** [shuffle] returns the words it was given, each as often as before, and
    draws one random index per position but the first. *)
Theorem shuffle_permutes rnd k a :
  (shuffle rnd k a).1 ≡ₚ a ∧ (shuffle rnd k a).2 = k + (length a - 1).
Proof.
  split; [apply shuffle_Permutation|]. unfold shuffle.
  generalize (length a - 1) as i. intros i. revert k a.
  induction i as [|i IH]; intros k a; simpl; [lia|]. rewrite IH. lia.
Qed.

(** A dictionary with fewer than five different words never yields a chain:
    whatever the random source, the attempts are all given up and the
    builder returns [null]. *)
Theorem tryBuildChain_too_few_words rnd k words maxTries :
  words ≠ [] →
  size (list_to_set words : gset string) < 5 →
  (tryBuildChain rnd k words maxTries).1 = BuildNull.
Proof.
  intros Hne Hsize.
  pose proof (tryBuildChain_nonempty rnd k words maxTries Hne) as Hthrow.
  destruct (tryBuildChain rnd k words maxTries) as [[chain| |] k'] eqn:Htry;
    [|done..].
  exfalso. apply tryBuildChain_built in Htry as [(Hlen & Hnd & _) Hsub].
  assert (list_to_set chain ⊆ (list_to_set words : gset string)) as Hincl.
  { intros w Hw%elem_of_list_to_set. by apply elem_of_list_to_set, Hsub. }
  apply subseteq_size in Hincl. rewrite size_list_to_set in Hincl by done. lia.
Qed.

Lemma tryBuildChain_too_few_words_witness :
  (tryBuildChain (λ n, n) 0 ["SMART"; "TRACE"; "EAGER"; "SMART"; "TRACE"] 5000).1
  = BuildNull.
Proof.
  apply (tryBuildChain_too_few_words (λ n, n) 0
           ["SMART"; "TRACE"; "EAGER"; "SMART"; "TRACE"] 5000).
  - done.
  - vm_compute. lia.
Defined.

(** When every letter that ends a word starts at least five different words,
    the first attempt cannot get stuck: the builder returns a chain after
    exactly five random draws, whatever they are. *)
Theorem tryBuildChain_first_attempt rnd k words maxTries :
  words ≠ [] → abundant words →
  ∃ chain, tryBuildChain rnd k words (S maxTries) = (Built chain, k + 5).
Proof.
  intros Hne Habund. unfold tryBuildChain. cbn [attempts].
  destruct (lookup_lt_is_Some_2 words (randIndex rnd k (length words)))
    as [w1 Hw1].
  { apply randIndex_lt. destruct words; [done|simpl; lia]. }
  rewrite Hw1.
  destruct (walk_succeeds rnd words 4 1 (S k) [w1] {[w1]}) as [chain Hwalk];
    [done| |lia|lia|].
  - apply walkInv_start. by eapply list_elem_of_lookup_2.
  - exists chain. rewrite Hwalk. f_equal. lia.
Qed.

End BuilderMore.

(** * Properties of the word list reader *)

Section ParserFacts.

Import Game Parser.

Lemma isLetter_facts c :
  isLetter c = true →
  isSeparator c = false ∧ isWhiteSpace c = false
  ∧ isUpper (upperAscii c) = true.
Proof. destruct c as [[] [] [] [] [] [] [] []]; by vm_compute. Qed.

Lemma isUpper_facts c :
  isUpper c = true → isLetter c = true ∧ upperAscii c = c.
Proof. destruct c as [[] [] [] [] [] [] [] []]; by vm_compute. Qed.

Lemma upperAscii_facts c :
  isLetter (upperAscii c) = isLetter c
  ∧ upperAscii (upperAscii c) = upperAscii c.
Proof. destruct c as [[] [] [] [] [] [] [] []]; by vm_compute. Qed.

Lemma allChars_cons p c s :
  allChars p (String c s) = true ↔ p c = true ∧ allChars p s = true.
Proof. cbn [allChars]. apply andb_true_iff. Qed.

Lemma append_cons c s t : String c s +:+ t = String c (s +:+ t).
Proof. done. Qed.

Lemma append_nil_l s : "" +:+ s = s.
Proof. done. Qed.

Lemma append_nil_r s : s +:+ "" = s.
Proof. induction s as [|c s IH]; [done|]. by rewrite append_cons, IH. Qed.

Lemma append_assoc s t u : (s +:+ t) +:+ u = s +:+ (t +:+ u).
Proof. induction s as [|c s IH]; [done|]. by rewrite !append_cons, IH. Qed.

Lemma splitFrom_nonempty s : ∀ b, splitFrom b s ≠ [].
Proof.
  induction s as [|c s IH]; intros b; cbn [splitFrom]; [done|].
  destruct (isSeparator c).
  - destruct b; [apply IH|done].
  - by destruct (splitFrom false s).
Qed.

(** A piece without separators stays in one piece, joined to what follows. *)
Lemma splitFrom_token w : ∀ b s piece pieces,
  allChars isLetter w = true →
  w ≠ "" ∨ b = false →
  splitFrom false s = piece :: pieces →
  splitFrom b (w +:+ s) = (w +:+ piece) :: pieces.
Proof.
  induction w as [|c w IH]; intros b s piece pieces Hw Hb Hs.
  - destruct Hb as [?| ->]; [done|]. by rewrite !append_nil_l, Hs.
  - apply allChars_cons in Hw as [Hc Hw].
    destruct (isLetter_facts c Hc) as (Hsep & _).
    rewrite append_cons. cbn [splitFrom]. rewrite Hsep.
    by rewrite (IH false s piece pieces Hw (or_intror eq_refl) Hs).
Qed.

Lemma splitFrom_run sep : ∀ s,
  allChars isSeparator sep = true →
  splitFrom true (sep +:+ s) = splitFrom true s.
Proof.
  induction sep as [|c sep IH]; intros s Hsep; [done|].
  apply allChars_cons in Hsep as [Hc Hsep].
  rewrite append_cons. cbn [splitFrom]. rewrite Hc. by apply IH.
Qed.

Lemma splitFrom_separator sep s :
  sep ≠ "" → allChars isSeparator sep = true →
  splitFrom false (sep +:+ s) = "" :: splitFrom true s.
Proof.
  destruct sep as [|c sep]; [done|]. intros _ [Hc Hsep]%allChars_cons.
  rewrite append_cons. cbn [splitFrom]. rewrite Hc. by rewrite splitFrom_run.
Qed.

Lemma splitFrom_true_letter c s :
  isLetter c = true →
  splitFrom true (String c s) = splitFrom false (String c s).
Proof.
  intros Hc. destruct (isLetter_facts c Hc) as (Hsep & _).
  cbn [splitFrom]. by rewrite Hsep.
Qed.

(** Tokens of letters, joined by a run of separators, split back into
    themselves. *)
Lemma split_join sep ws :
  sep ≠ "" → allChars isSeparator sep = true →
  ws ≠ [] →
  Forall (λ w, w ≠ "" ∧ allChars isLetter w = true) ws →
  split (join sep ws) = ws.
Proof.
  intros Hne Hsep Hws Hall. unfold split.
  induction Hall as [|w ws [Hw Hletters] Hall IH]; [done|].
  destruct ws as [|w' ws].
  - cbn [join]. rewrite <- (append_nil_r w) at 1.
    rewrite (splitFrom_token w false "" "" []); try done; [|by left].
    by rewrite append_nil_r.
  - cbn [join].
    rewrite (splitFrom_token w false _ "" (w' :: ws)); try done; [|by left|].
    + by rewrite append_nil_r.
    + rewrite splitFrom_separator by done. f_equal.
      rewrite <- IH by done.
      apply Forall_cons in Hall as [[Hw' Hl'] _].
      destruct w' as [|c w']; [done|].
      apply allChars_cons in Hl' as [Hc _].
      destruct ws; cbn [join]; rewrite ?append_cons;
        by apply splitFrom_true_letter.
Qed.

Lemma trim_letters w : allChars isLetter w = true → trim w = w.
Proof.
  intros Hw. unfold trim.
  assert (trimStart w = w) as ->.
  { destruct w as [|c w]; [done|]. apply allChars_cons in Hw as [Hc _].
    destruct (isLetter_facts c Hc) as (_ & Hws & _).
    cbn [trimStart]. by rewrite Hws. }
  induction w as [|c w IH]; [done|].
  apply allChars_cons in Hw as [Hc Hw].
  destruct (isLetter_facts c Hc) as (_ & Hws & _).
  cbn [trimEnd]. rewrite (IH Hw), Hws. by destruct w.
Qed.

Lemma toUpperCase_letters w :
  allChars isLetter w = true → allChars isUpper (toUpperCase w) = true.
Proof.
  induction w as [|c w IH]; [done|]. intros [Hc Hw]%allChars_cons.
  cbn [toUpperCase]. apply allChars_cons. split; [|by apply IH].
  by destruct (isLetter_facts c Hc) as (_ & _ & ?).
Qed.

Lemma toUpperCase_upper w :
  allChars isUpper w = true → toUpperCase w = w.
Proof.
  induction w as [|c w IH]; [done|]. intros [Hc Hw]%allChars_cons.
  cbn [toUpperCase]. rewrite (IH Hw).
  by destruct (isUpper_facts c Hc) as [_ ->].
Qed.

Lemma allChars_upper_letter w :
  allChars isUpper w = true → allChars isLetter w = true.
Proof.
  induction w as [|c w IH]; [done|]. intros [Hc Hw]%allChars_cons.
  apply allChars_cons. split; [|by apply IH].
  by destruct (isUpper_facts c Hc).
Qed.

Lemma isWord_inv w :
  isWord w = true ↔ String.length w = 5 ∧ allChars isUpper w = true.
Proof.
  unfold isWord. rewrite andb_true_iff. by rewrite Nat.eqb_eq.
Qed.

Lemma filter_all {A} (P : A → Prop) `{∀ x, Decision (P x)} (l : list A) :
  Forall P l → filter P l = l.
Proof.
  induction 1 as [|x l Hx Hl IH]; [done|].
  rewrite filter_cons, IH. by rewrite decide_True.
Qed.

(** Five-letter tokens written with a run of separators between them are all
    read, in order and in upper case, repeated ones included. *)
Theorem parseCSV_join sep ws :
  sep ≠ "" → allChars isSeparator sep = true →
  Forall (λ w, String.length w = 5 ∧ allChars isLetter w = true) ws →
  parseCSV (join sep ws) = map toUpperCase ws.
Proof.
  intros Hne Hsep Hall. unfold parseCSV.
  destruct (decide (ws = [])) as [->|Hws]; [done|].
  rewrite split_join; try done.
  - assert (map (λ s, toUpperCase (trim s)) ws = map toUpperCase ws) as ->.
    { apply map_ext_Forall. eapply Forall_impl; [exact Hall|].
      intros w [_ Hw]. cbn beta. by rewrite trim_letters. }
    rewrite (filter_all (λ s, s ≠ "")).
    + apply filter_all, Forall_map. eapply Forall_impl; [exact Hall|].
      intros w [Hlen Hw]. cbn beta. apply isWord_inv.
      rewrite length_toUpperCase. split; [done|by apply toUpperCase_letters].
    + apply Forall_map. eapply Forall_impl; [exact Hall|].
      intros w [Hlen Hw]. cbn beta.
      intros Hempty. apply (f_equal String.length) in Hempty.
      rewrite length_toUpperCase, Hlen in Hempty. done.
  - eapply Forall_impl; [exact Hall|]. intros w [Hlen Hw]. split; [|done].
    intros ->. done.
Qed.

Lemma parseCSV_join_witness :
  parseCSV (join ", " ["smart"; "Trace"; "EAGER"; "smart"])
  = map toUpperCase ["smart"; "Trace"; "EAGER"; "smart"].
Proof.
  apply (parseCSV_join ", " ["smart"; "Trace"; "EAGER"; "smart"]).
  - done.
  - reflexivity.
  - repeat constructor.
Defined.

Lemma parseCSV_words text :
  Forall (λ w, isWord w = true) (parseCSV text).
Proof.
  unfold parseCSV. apply Forall_forall. intros w Hw.
  by apply list_elem_of_filter in Hw as [Hw _].
Qed.

End ParserFacts.

(** * Playing a game through *)

Section PlayFacts.

Import Builder Game Parser Play.

Lemma onKeyDown_letter_st key w :
  active (game w) = true → isLetterKey key = true →
  greenCount (game w) + String.length (typed (game w)) < 5 →
  st (onKeyDown key w) =
  {| game := {| words := words (game w); idx := idx (game w);
                typed := typed (game w) +:+ toUpperCase key;
                greenCount := greenCount (game w); active := true |};
     sleeping := sleeping w |}.
Proof.
  intros Hact Hkey Hroom. destruct (isLetterKey_inv key Hkey) as [HnE HnB].
  unfold onKeyDown. rewrite bind_getGame, Hact. cbn [negb].
  rewrite !bool_decide_eq_false_2 by done. rewrite Hkey.
  apply Nat.leb_gt in Hroom. rewrite Hroom.
  unfold setTyped. rewrite bind_setGame.
  rewrite keepsWorld_paintCurrent. by rewrite Hact.
Qed.

Lemma append_snoc s c t : (s +:+ String c "") +:+ t = s +:+ String c t.
Proof. by rewrite append_assoc. Qed.

(** Letters typed while there is room all go to the buffer, in upper case. *)
Lemma run_typeLetters s : ∀ w,
  active (game w) = true →
  allChars isLetter s = true →
  greenCount (game w) + String.length (typed (game w)) + String.length s ≤ 5 →
  run (typeLetters s) w =
  {| game := {| words := words (game w); idx := idx (game w);
                typed := typed (game w) +:+ toUpperCase s;
                greenCount := greenCount (game w); active := true |};
     sleeping := sleeping w |}.
Proof.
  induction s as [|c s IH]; intros w Hact Hs Hroom.
  - cbn [typeLetters String.list_ascii_of_string map run foldl toUpperCase].
    rewrite append_nil_r. destruct w as [[ws i t g a] n]. simpl in *. by subst.
  - apply allChars_cons in Hs as [Hc Hs]. cbn [String.length] in Hroom.
    cbn [typeLetters String.list_ascii_of_string map run foldl].
    unfold step at 2. cbn [handle].
    rewrite onKeyDown_letter_st by (done || lia).
    change (foldl step ?w0 (map ?f (String.list_ascii_of_string s)))
      with (run (typeLetters s) w0).
    rewrite IH; cbn [game words idx typed greenCount active sleeping];
      try done.
    + cbn [toUpperCase]. by rewrite append_snoc.
    + rewrite length_append. cbn [toUpperCase String.length]. lia.
Qed.

Lemma scan_all_match typed target gc :
  (∀ j, j < String.length typed →
     charAt typed j = charAt target (gc + j)) →
  scan typed (Some target) gc (String.length typed) 0 gc
  = Some (gc + String.length typed).
Proof.
  intros Hall.
  destruct (scan_defined typed target gc (String.length typed) 0 gc)
    as (n & -> & Hle & _ & Hstop).
  destruct (decide (n < String.length typed)) as [Hlt|Hge].
  - destruct (Hstop Hlt). cbn [Nat.add]. by apply Hall.
  - f_equal. lia.
Qed.

Lemma length_substring s : ∀ n m,
  n + m ≤ String.length s → String.length (String.substring n m s) = m.
Proof.
  induction s as [|c s IH]; intros [|n] [|m] Hlen; simpl in *;
    try done; try lia.
  - f_equal. apply (IH 0 m). lia.
  - apply (IH n 0). lia.
  - apply (IH n (S m)). lia.
Qed.

Lemma allChars_substring p s : ∀ n m,
  allChars p s = true → allChars p (String.substring n m s) = true.
Proof.
  induction s as [|c s IH]; intros [|n] [|m] Hs; simpl in *; try done.
  - apply andb_true_iff in Hs as [Hc Hs]. apply andb_true_iff.
    split; [done|by apply IH].
  - apply andb_true_iff in Hs as [_ Hs]. by apply (IH n 0).
  - apply andb_true_iff in Hs as [_ Hs]. by apply (IH n (S m)).
Qed.

Lemma run_app es1 es2 w : run (es1 ++ es2) w = run es2 (run es1 w).
Proof. unfold run. apply foldl_app. Qed.

Lemma run_rest_enter w target :
  active (game w) = true →
  idx (game w) < 5 →
  words (game w) !! idx (game w) = Some target →
  isWord target = true →
  typed (game w) = "" →
  greenCount (game w) ≤ 5 →
  run (typeLetters
         (String.substring (greenCount (game w)) (5 - greenCount (game w))
            target)
       ++ [KeyDown "Enter"]) w
  = {| game := {| words := words (game w); idx := idx (game w); typed := "";
                  greenCount := 5; active := true |};
       sleeping := S (sleeping w) |}.
Proof.
  intros Hact Hidx Htarget [Hlen Hupper]%isWord_inv Htyped Hgc.
  set (gc := greenCount (game w)) in *.
  set (rest := String.substring gc (5 - gc) target).
  assert (String.length rest = 5 - gc) as Hrest
    by (apply length_substring; lia).
  assert (allChars isUpper rest = true) as Hrestup
    by by apply allChars_substring.
  rewrite run_app, run_typeLetters; try done.
  2: by apply allChars_upper_letter.
  2: rewrite Htyped; cbn [String.length]; fold gc; lia.
  rewrite Htyped, append_nil_l, toUpperCase_upper by done. fold gc.
  cbn [run foldl]. unfold step. cbn [handle].
  assert (∀ j, j < String.length rest →
            charAt rest j = charAt target (gc + j)) as Hmatch.
  { intros j Hj. unfold charAt, rest.
    rewrite String.substring_correct1 by lia. by rewrite Nat.add_comm. }
  rewrite (onKeyDown_enter_complete _ target);
    cbn [game words idx typed greenCount active sleeping]; try done.
  - lia.
  - rewrite onKeyDown_enter_full;
      cbn [game words idx typed greenCount active sleeping]; try done; [|lia].
    rewrite Htarget, scan_all_match by done.
    cbn [greenCount]. lia.
Qed.

(** From any number of confirmed letters, typing the letters of the target
    that are left and pressing Enter confirms all five and starts the word
    completion. *)
Theorem typing_the_rest_completes_the_word w target :
  active (game w) = true →
  idx (game w) < 5 →
  words (game w) !! idx (game w) = Some target →
  isWord target = true →
  typed (game w) = "" →
  greenCount (game w) ≤ 5 →
  run (typeLetters
         (String.substring (greenCount (game w)) (5 - greenCount (game w))
            target)
       ++ [KeyDown "Enter"]) w
  = {| game := {| words := words (game w); idx := idx (game w); typed := "";
                  greenCount := 5; active := true |};
       sleeping := S (sleeping w) |}.
Proof. apply run_rest_enter. Qed.

Lemma typing_the_rest_completes_the_word_witness :
  let w := step (run (typeLetters "mxrt") sampleStart) (KeyDown "Enter") in
  run (typeLetters
         (String.substring (greenCount (game w)) (5 - greenCount (game w))
            "SMART")
       ++ [KeyDown "Enter"]) w
  = {| game := {| words := words (game w); idx := idx (game w); typed := "";
                  greenCount := 5; active := true |};
       sleeping := S (sleeping w) |}.
Proof.
  apply (typing_the_rest_completes_the_word
           (step (run (typeLetters "mxrt") sampleStart) (KeyDown "Enter"))
           "SMART").
  - vm_compute. reflexivity.
  - vm_compute. lia.
  - vm_compute. reflexivity.
  - vm_compute. reflexivity.
  - vm_compute. reflexivity.
  - vm_compute. lia.
Defined.

(** Playing one word from its start reaches the start of the next word, or
    the end of the game after the fifth. *)
Lemma run_playWord chain n i target :
  length chain = 5 → chain !! i = Some target → isWord target = true →
  run (playWord target) (atWord chain n i)
  = if i + 1 <? 5 then atWord chain n (i + 1) else finished chain n.
Proof.
  intros Hlen Htarget Hword.
  assert (i < 5) as Hi by (apply lookup_lt_Some in Htarget; lia).
  unfold playWord.
  change [KeyDown "Enter"; Wake] with ([KeyDown "Enter"] ++ [Wake]).
  rewrite app_assoc, run_app.
  change (String.substring 1 4 target)
    with (String.substring (greenCount (game (atWord chain n i)))
            (5 - greenCount (game (atWord chain n i))) target).
  rewrite (run_rest_enter (atWord chain n i) target)
    by (done || (cbn; lia)).
  cbn [atWord game words idx sleeping run foldl]. unfold step. cbn [handle].
  unfold wake. cbn [sleeping game].
  rewrite completeWordResume_st by done.
  cbn [game words idx active sleeping].
  destruct (i + 1 <? 5) eqn:Hnext; [done|].
  apply Nat.ltb_ge in Hnext. unfold finished. repeat f_equal. lia.
Qed.

Lemma playAll_chain_finishes chain n :
  length chain = 5 →
  Forall (λ w, isWord w = true) chain →
  run (playAll chain) (atWord chain n 0) = finished chain n.
Proof.
  intros Hlen Hwords.
  destruct chain as [|t0 [|t1 [|t2 [|t3 [|t4 [|]]]]]]; try done.
  assert (∀ i t, [t0; t1; t2; t3; t4] !! i = Some t → isWord t = true)
    as Hword.
  { intros i t Hit. rewrite Forall_lookup in Hwords. by eapply Hwords. }
  unfold playAll. cbn -[run playWord]. rewrite app_nil_r, !run_app.
  rewrite (run_playWord _ n 0 t0); [|done|done|by apply (Hword 0)].
  cbn [Nat.add Nat.ltb Nat.leb].
  rewrite (run_playWord _ n 1 t1); [|done|done|by apply (Hword 1)].
  cbn [Nat.add Nat.ltb Nat.leb].
  rewrite (run_playWord _ n 2 t2); [|done|done|by apply (Hword 2)].
  cbn [Nat.add Nat.ltb Nat.leb].
  rewrite (run_playWord _ n 3 t3); [|done|done|by apply (Hword 3)].
  cbn [Nat.add Nat.ltb Nat.leb].
  by rewrite (run_playWord _ n 4 t4); [|done|done|by apply (Hword 4)].
Qed.

(** A game on five words of five capital letters can always be played to
    its end: typing each word after its first letter and pressing Enter,
    with the completion running before the next key, ends with all five
    words done and the game no longer active. *)
Theorem playAll_finishes chain n :
  length chain = 5 →
  Forall (λ w, isWord w = true) chain →
  run (playAll chain) (atWord chain n 0) = finished chain n.
Proof. apply playAll_chain_finishes. Qed.

Lemma playAll_finishes_witness :
  run (playAll sampleChain) (atWord sampleChain 0 0) = finished sampleChain 0.
Proof.
  apply (playAll_finishes sampleChain 0).
  - reflexivity.
  - repeat constructor.
Defined.

(** *** What is painted *)

Lemma bind_emit {B} s (f : unit → M B) w :
  bind (emit s) f w
  = mkRes (val (f tt w)) (st (f tt w)) (s :: out (f tt w)).
Proof. done. Qed.

Lemma bind_done {A B} (m : M A) (f : A → M B) w a sigs :
  m w = mkRes (Some a) w sigs →
  bind m f w = mkRes (val (f a w)) (st (f a w)) (sigs ++ out (f a w)).
Proof. intros Hm. unfold bind. by rewrite Hm. Qed.

Lemma forLoop_signals body sig w count : ∀ from,
  (∀ i, from ≤ i < from + count → body i w = mkRes (Some tt) w [sig i]) →
  forLoop count from body w = mkRes (Some tt) w (map sig (seq from count)).
Proof.
  induction count as [|count IH]; intros from Hbody; cbn [forLoop]; [done|].
  rewrite (bind_done _ _ _ tt [sig from]) by (apply Hbody; lia).
  rewrite IH by (intros i Hi; apply Hbody; lia). done.
Qed.

Lemma setTile_signal wd pos ch cls w :
  pos < 5 →
  setTile (tileOf wd pos) ch cls w = mkRes (Some tt) w [SetTile wd pos ch cls].
Proof. intros Hpos%Nat.ltb_lt. unfold setTile, tileOf. by rewrite Hpos. Qed.

Lemma paintCurrent_signals w target :
  idx (game w) < 5 →
  words (game w) !! idx (game w) = Some target →
  greenCount (game w) + String.length (typed (game w)) ≤ 5 →
  paintCurrent w
  = mkRes (Some tt) w (map (tileAt (game w) target) (seq 0 5)).
Proof.
  intros Hidx%Nat.ltb_lt Htarget Hfit.
  set (gc := greenCount (game w)). set (len := String.length (typed (game w))).
  replace (seq 0 5) with (seq 0 (gc + (len + (5 - (gc + len)))))
    by (f_equal; subst gc len; lia).
  rewrite !seq_app, !map_app. cbn [Nat.add].
  unfold paintCurrent. rewrite bind_getGame. unfold wordElement.
  rewrite Hidx. cbn [deref]. rewrite bind_ret, Htarget. cbn [deref].
  fold gc len.
  erewrite bind_done; [|apply forLoop_signals].
  2:{ intros i Hi. rewrite bind_ret. apply setTile_signal. lia. }
  erewrite bind_done; [|apply forLoop_signals].
  2:{ intros i Hi. apply setTile_signal. lia. }
  erewrite forLoop_signals.
  2:{ intros i Hi. apply setTile_signal. lia. }
  cbn [val st out]. f_equal. f_equal; [|f_equal].
  - apply map_ext_in. intros i Hi%in_seq. unfold tileAt. fold gc.
    by rewrite (proj2 (Nat.ltb_lt i gc)) by lia.
  - replace (seq gc len) with (Nat.add gc <$> seq 0 len)
      by (rewrite fmap_add_seq; f_equal; lia).
    change (map ?f (Nat.add gc <$> ?l)) with (map f (map (Nat.add gc) l)).
    rewrite map_map. apply map_ext_in. intros i Hi%in_seq.
    unfold tileAt. fold gc len.
    rewrite (proj2 (Nat.ltb_ge (gc + i) gc)) by lia.
    rewrite (proj2 (Nat.ltb_lt (gc + i) (gc + len))) by lia.
    by replace (gc + i - gc) with i by lia.
  - apply map_ext_in. intros i Hi%in_seq. unfold tileAt. fold gc len.
    rewrite (proj2 (Nat.ltb_ge i gc)) by lia.
    by rewrite (proj2 (Nat.ltb_ge i (gc + len))) by lia.
Qed.

(** [paintCurrent] sets each of the five tiles of the current word once, from
    left to right: the confirmed positions green with the target's letters,
    then the typed letters blue, the rest hidden and blank; it changes
    nothing else and does not throw. *)
Theorem paintCurrent_tiles w target :
  idx (game w) < 5 →
  words (game w) !! idx (game w) = Some target →
  greenCount (game w) + String.length (typed (game w)) ≤ 5 →
  paintCurrent w
  = mkRes (Some tt) w (map (tileAt (game w) target) (seq 0 5)).
Proof. apply paintCurrent_signals. Qed.

Lemma paintCurrent_tiles_witness :
  let w := run (typeLetters "mx") sampleStart in
  paintCurrent w
  = mkRes (Some tt) w (map (tileAt (game w) "SMART") (seq 0 5)).
Proof.
  apply (paintCurrent_tiles (run (typeLetters "mx") sampleStart) "SMART").
  - vm_compute. lia.
  - vm_compute. reflexivity.
  - vm_compute. lia.
Defined.

Lemma tiles_of_new_word chain i n a target :
  map (tileAt (game {| game := {| words := chain; idx := i; typed := "";
                                  greenCount := 1; active := a |};
                       sleeping := n |}) target) (seq 0 5)
  = [SetTile i 0 (charAt target 0) Green; SetTile i 1 None Hidden;
     SetTile i 2 None Hidden; SetTile i 3 None Hidden;
     SetTile i 4 None Hidden].
Proof. done. Qed.

(** The start of a game sends exactly these signals.  The hint class put on
    the first tile is replaced by plain green by the repaint that follows in
    the same handler. *)
Theorem startGame_signals chain first w :
  length chain = 5 → chain !! 0 = Some first →
  startGame chain w
  = mkRes (Some tt) (atWord chain (sleeping w) 0)
      [RenderChain;
       SetTile 0 0 (charAt first 0) HintGreen;
       SetTile 0 0 (charAt first 0) Green;
       SetTile 0 1 None Hidden; SetTile 0 2 None Hidden;
       SetTile 0 3 None Hidden; SetTile 0 4 None Hidden;
       StartTimer;
       SetStatus (MsgStart (charAt first 0))].
Proof.
  intros Hlen Hfirst.
  unfold startGame, setWords, setIdx, setTyped, setGreenCount, setActive.
  rewrite bind_emit, !bind_setGame.
  cbn [game words idx typed greenCount active sleeping].
  erewrite bind_done.
  2:{ unfold showStartHint. rewrite bind_getGame. cbn [game words].
      rewrite Hfirst. reflexivity. }
  erewrite bind_done.
  2:{ apply (paintCurrent_signals _ first); cbn; [lia|done|lia]. }
  rewrite tiles_of_new_word, bind_emit, bind_getGame. cbn [game words].
  rewrite Hfirst. reflexivity.
Qed.

Lemma startGame_signals_witness :
  startGame sampleChain world0
  = mkRes (Some tt) (atWord sampleChain (sleeping world0) 0)
      [RenderChain;
       SetTile 0 0 (charAt "SMART" 0) HintGreen;
       SetTile 0 0 (charAt "SMART" 0) Green;
       SetTile 0 1 None Hidden; SetTile 0 2 None Hidden;
       SetTile 0 3 None Hidden; SetTile 0 4 None Hidden;
       StartTimer;
       SetStatus (MsgStart (charAt "SMART" 0))].
Proof.
  apply (startGame_signals sampleChain "SMART" world0); reflexivity.
Defined.

(** A word completion on five target words sends these signals: for a next
    word its prompt, the hint tile and at once the repaint that makes it plain
    green; after the last word the end of the timer, the solved status and
    the summary. *)
Theorem completeWordResume_signals w :
  length (words (game w)) = 5 →
  out (completeWordResume w) =
  match words (game w) !! (idx (game w) + 1) with
  | Some target =>
      let c := charAt target 0 in
      let i := idx (game w) + 1 in
      [SetStatus (MsgWordPrompt (i + 1) c);
       SetTile i 0 c HintGreen;
       SetTile i 0 c Green;
       SetTile i 1 None Hidden; SetTile i 2 None Hidden;
       SetTile i 3 None Hidden; SetTile i 4 None Hidden]
  | None =>
      [SetStatus MsgEmpty; StopTimer; SetStatus MsgSolved;
       ShowSummary (words (game w))]
  end.
Proof.
  intros Hlen. unfold completeWordResume, setIdx, setTyped, setGreenCount.
  rewrite bind_getGame, !bind_setGame, bind_getGame.
  cbn [game idx words typed greenCount active sleeping].
  destruct (words (game w) !! (idx (game w) + 1)) as [target|] eqn:Htarget.
  - assert ((idx (game w) + 1 <? 5) = true) as Hnext.
    { apply Nat.ltb_lt. apply lookup_lt_Some in Htarget. lia. }
    rewrite Hnext. cbn [deref].
    rewrite bind_assoc, bind_ret, bind_emit.
    unfold wordElement. rewrite Hnext. cbn [deref]. rewrite !bind_ret.
    unfold setTile, tileOf. cbn [Nat.ltb Nat.leb deref].
    rewrite bind_assoc, bind_ret, bind_emit, bind_setGame.
    cbn [game idx words typed greenCount active sleeping].
    rewrite (paintCurrent_signals _ target);
      [|cbn; by apply Nat.ltb_lt|done|cbn; lia].
    by rewrite tiles_of_new_word.
  - assert ((idx (game w) + 1 <? 5) = false) as Hnext.
    { apply Nat.ltb_ge. apply lookup_ge_None in Htarget. lia. }
    rewrite Hnext. unfold setActive. by rewrite bind_emit, bind_setGame.
Qed.

Lemma completeWordResume_signals_witness :
  let w := atWord sampleChain 0 0 in
  out (completeWordResume w) =
  match words (game w) !! (idx (game w) + 1) with
  | Some target =>
      let c := charAt target 0 in
      let i := idx (game w) + 1 in
      [SetStatus (MsgWordPrompt (i + 1) c);
       SetTile i 0 c HintGreen;
       SetTile i 0 c Green;
       SetTile i 1 None Hidden; SetTile i 2 None Hidden;
       SetTile i 3 None Hidden; SetTile i 4 None Hidden]
  | None =>
      [SetStatus MsgEmpty; StopTimer; SetStatus MsgSolved;
       ShowSummary (words (game w))]
  end.
Proof.
  apply (completeWordResume_signals (atWord sampleChain 0 0)). reflexivity.
Defined.

(** *** Keys *)

(** A letter key does the same whether it comes in lower or in upper
    case. *)
Theorem letter_keys_ignore_case key w :
  isLetterKey key = true →
  onKeyDown (toUpperCase key) w = onKeyDown key w.
Proof.
  intros Hkey. destruct key as [|c [|c' key]]; try done.
  cbn [isLetterKey] in Hkey. cbn [toUpperCase].
  destruct (upperAscii_facts c) as [Hletter Hidem].
  unfold onKeyDown. rewrite !bind_getGame.
  destruct (active (game w)); [|done]. cbn [negb].
  rewrite !bool_decide_eq_false_2 by done.
  cbn [isLetterKey toUpperCase]. by rewrite Hletter, Hidem.
Qed.

Lemma letter_keys_ignore_case_witness :
  onKeyDown (toUpperCase "q") sampleStart = onKeyDown "q" sampleStart.
Proof. apply (letter_keys_ignore_case "q" sampleStart). reflexivity. Defined.

Lemma allChars_append p s t :
  allChars p s = true → allChars p t = true → allChars p (s +:+ t) = true.
Proof.
  induction s as [|c s IH]; [done|]. intros [Hc Hs]%allChars_cons Ht.
  rewrite append_cons. apply allChars_cons. split; [done|by apply IH].
Qed.

Lemma isLetterKey_letters key :
  isLetterKey key = true → allChars isLetter key = true.
Proof.
  destruct key as [|c [|c' key]]; try done. cbn [isLetterKey allChars].
  intros ->. done.
Qed.

(** What every handler keeps besides the invariant: the buffer holds capital
    letters only, and an active game has its first letter confirmed. *)
Lemma step_upper w e :
  invariant w →
  allChars isUpper (typed (game w)) = true
  ∧ (active (game w) = true → 1 ≤ greenCount (game w)) →
  allChars isUpper (typed (game (step w e))) = true
  ∧ (active (game (step w e)) = true → 1 ≤ greenCount (game (step w e))).
Proof.
  intros (Hfit & Hwords & Hidx) [Hupper Hgc]. unfold step.
  destruct e as [key| |rnd k cache]; cbn [handle].
  - destruct (decide (active (game w) = true)) as [Hact|Hact%not_true_is_false];
      [|by rewrite onKeyDown_inactive].
    specialize (Hgc Hact).
    destruct (decide (key = "Enter")) as [->|HnE].
    + destruct (decide (greenCount (game w) + String.length (typed (game w)) < 5))
        as [Hlt|Hge].
      * by destruct (onKeyDown_enter_short w Hact Hlt) as [-> _].
      * rewrite onKeyDown_enter_full by (done || lia).
        destruct (scan _ _ _ _ _ _) as [m|] eqn:Hscan; [|done].
        apply scan_bounds in Hscan. cbn. split; [done|lia].
    + destruct (decide (key = "Backspace")) as [->|HnB].
      * rewrite onKeyDown_backspace by done.
        destruct (0 <? _); [|done]. cbn.
        split; [by apply allChars_substring|done].
      * destruct (isLetterKey key) eqn:Hkey.
        -- rewrite onKeyDown_letter by done.
           destruct (5 <=? _); [done|]. cbn. split; [|done].
           apply allChars_append; [done|].
           by apply toUpperCase_letters, isLetterKey_letters.
        -- by rewrite onKeyDown_other.
  - unfold wake. destruct (sleeping w) as [|n] eqn:Hsleep; [done|].
    rewrite completeWordResume_st by (apply Hwords; lia). cbn [game].
    by destruct (idx (game w) + 1 <? 5).
  - rewrite newGame_st.
    by destruct (buildWithRetries rnd k cache).1.
Qed.

Lemma run_upper es : ∀ w,
  invariant w →
  allChars isUpper (typed (game w)) = true
  ∧ (active (game w) = true → 1 ≤ greenCount (game w)) →
  allChars isUpper (typed (game (run es w))) = true
  ∧ (active (game (run es w)) = true → 1 ≤ greenCount (game (run es w))).
Proof.
  induction es as [|e es IH]; intros w Hinv Hup; [done|].
  apply IH; [by apply step_invariant|by apply step_upper].
Qed.

(** In every reachable state the typed buffer holds capital letters A-Z
    only, and while a game is active its first letter is confirmed, so the
    buffer never holds more than four letters. *)
Theorem typed_is_capital_letters w :
  reachable w →
  allChars isUpper (typed (game w)) = true
  ∧ (active (game w) = true →
     1 ≤ greenCount (game w) ∧ String.length (typed (game w)) ≤ 4).
Proof.
  intros Hreach. pose proof (reachable_invariant w Hreach) as Hinv.
  destruct Hreach as [es ->].
  destruct (run_upper es world0) as [Hupper Hgc].
  - apply reachable_invariant. by exists [].
  - done.
  - split; [done|]. intros Hact. specialize (Hgc Hact).
    destruct Hinv as (Hfit & _). lia.
Qed.

Lemma typed_is_capital_letters_witness :
  let w := run (typeLetters "mxr") sampleStart in
  allChars isUpper (typed (game w)) = true
  ∧ (active (game w) = true →
     1 ≤ greenCount (game w) ∧ String.length (typed (game w)) ≤ 4).
Proof.
  apply (typed_is_capital_letters (run (typeLetters "mxr") sampleStart)).
  exists (NewGame (λ _, 0) 0 sampleChain :: typeLetters "mxr"). reflexivity.
Defined.

(** *** New games and pending completions *)

(** [newGame] does not take back a word completion that is still waiting:
    when it runs, it moves the new game to its second word although nothing
    was typed. *)
Theorem pending_completion_survives_newGame w rnd k cache chain :
  0 < sleeping w →
  (buildWithRetries rnd k cache).1 = Built chain →
  run [NewGame rnd k cache; Wake] w = atWord chain (sleeping w - 1) 1.
Proof.
  intros Hsleep Hbuild. cbn [run foldl]. unfold step. cbn [handle].
  rewrite newGame_st, Hbuild. unfold wake. cbn [sleeping].
  destruct (sleeping w) as [|n]; [lia|].
  destruct (buildWithRetries rnd k cache) as [r k'] eqn:Hb. cbn [fst] in Hbuild.
  subst r. apply buildWithRetries_built in Hb as [(Hlen & _) _].
  rewrite completeWordResume_st by done. cbn [game idx words active sleeping].
  unfold atWord. f_equal; try done; lia.
Qed.

Lemma pending_completion_survives_newGame_witness :
  let w := run (typeLetters "mart" ++ [KeyDown "Enter"]) sampleStart in
  run [NewGame (λ _, 0) 0 sampleChain; Wake] w
  = atWord sampleChain (sleeping w - 1) 1.
Proof.
  apply (pending_completion_survives_newGame
           (run (typeLetters "mart" ++ [KeyDown "Enter"]) sampleStart)
           (λ _, 0) 0 sampleChain sampleChain).
  - vm_compute. lia.
  - vm_compute. reflexivity.
Defined.

(** Short of a new game, nothing changes the target words or moves back in
    them, and a game that is over stays over. *)
Theorem only_newGame_restarts w e :
  reachable w →
  (∀ rnd k cache, e ≠ NewGame rnd k cache) →
  words (game (step w e)) = words (game w)
  ∧ idx (game w) ≤ idx (game (step w e))
  ∧ (active (game w) = false → active (game (step w e)) = false).
Proof.
  intros (_ & Hwords & _)%reachable_invariant Hnew. unfold step.
  destruct e as [key| |rnd k cache]; cbn [handle]; [| |by destruct (Hnew rnd k cache)].
  - destruct (onKeyDown_frame key w) as (Hw & Hi & Ha & _).
    rewrite Hw, Hi, Ha. by split_and!.
  - unfold wake. destruct (sleeping w) as [|n] eqn:Hsleep; [by split_and!|].
    rewrite completeWordResume_st by (apply Hwords; lia). cbn [game].
    destruct (idx (game w) + 1 <? 5); cbn; split_and!; try done; lia.
Qed.

Lemma only_newGame_restarts_witness :
  let w := run (playAll sampleChain) sampleStart in
  let e := KeyDown "a" in
  words (game (step w e)) = words (game w)
  ∧ idx (game w) ≤ idx (game (step w e))
  ∧ (active (game w) = false → active (game (step w e)) = false).
Proof.
  apply (only_newGame_restarts (run (playAll sampleChain) sampleStart)
           (KeyDown "a")).
  - exists (NewGame (λ _, 0) 0 sampleChain :: playAll sampleChain).
    reflexivity.
  - done.
Defined.

(** For a text of ASCII characters: when the builder returns a chain for the
    words read from the text, [newGame] starts the game on that chain, which
    has five words of five capital letters each, all read from the text, and
    which can be played to its end; when the builder returns none, the page
    stays as it was. *)
Theorem newGame_on_parsed_words text rnd k w :
  allChars isAscii text = true →
  let w' := st (newGame rnd k (parseCSV text) w) in
  match (buildWithRetries rnd k (parseCSV text)).1 with
  | Built chain =>
      w' = atWord chain (sleeping w) 0
      ∧ length chain = 5
      ∧ Forall (λ t, isWord t = true ∧ t ∈ parseCSV text) chain
      ∧ run (playAll chain) w' = finished chain (sleeping w)
  | BuildNull | BuildTypeError => w' = w
  end.
Proof.
  intros _. cbn zeta. rewrite newGame_st.
  destruct (buildWithRetries rnd k (parseCSV text)) as [[chain| |] k'] eqn:Hb;
    cbn [fst]; [|done..].
  apply buildWithRetries_built in Hb as [(Hlen & _) Hsub].
  assert (Forall (λ t, isWord t = true) chain) as Hwords.
  { apply Forall_forall. intros t Ht%Hsub.
    pose proof (parseCSV_words text) as Hall.
    rewrite Forall_forall in Hall. by apply Hall. }
  split_and!; try done.
  - apply Forall_forall. intros t Ht. split; [|by apply Hsub].
    rewrite Forall_forall in Hwords. by apply Hwords.
  - by apply playAll_chain_finishes.
Qed.

Lemma newGame_on_parsed_words_witness :
  let text := "smart, trace,eager radio,,other" in
  let w' := st (newGame (λ _, 0) 0 (parseCSV text) world0) in
  match (buildWithRetries (λ _, 0) 0 (parseCSV text)).1 with
  | Built chain =>
      w' = atWord chain (sleeping world0) 0
      ∧ length chain = 5
      ∧ Forall (λ t, isWord t = true ∧ t ∈ parseCSV text) chain
      ∧ run (playAll chain) w' = finished chain (sleeping world0)
  | BuildNull | BuildTypeError => w' = world0
  end.
Proof.
  apply (newGame_on_parsed_words "smart, trace,eager radio,,other"
           (λ _, 0) 0 world0).
  vm_compute. reflexivity.
Defined.

End PlayFacts.

(** * Further properties of starting and typing *)

Section MoreFacts.

Import Builder Game Parser Play.


Lemma tryBuildChain_first_attempt_witness :
  ∃ chain,
    tryBuildChain (λ n, n) 0 ["TIGHT"; "TRAIT"; "TREAT"; "TWIST"; "TAROT"] 1
    = (Built chain, 0 + 5).
Proof.
  apply (tryBuildChain_first_attempt (λ n, n) 0
           ["TIGHT"; "TRAIT"; "TREAT"; "TWIST"; "TAROT"] 0).
  - done.
  - intros w Hw.
    repeat (apply elem_of_cons in Hw as [->|Hw]; [vm_compute; lia|]).
    by apply elem_of_nil in Hw.
Defined.

Lemma buildWithRetries_too_few rnd k cache :
  cache ≠ [] →
  size (list_to_set cache : gset string) < 5 →
  (buildWithRetries rnd k cache).1 = BuildNull.
Proof.
  intros Hne Hsize.
  pose proof (buildWithRetries_nonempty rnd k cache Hne) as Hthrow.
  destruct (buildWithRetries rnd k cache) as [[chain| |] k'] eqn:Hb; [|done..].
  exfalso. apply buildWithRetries_built in Hb as [(Hlen & Hnd & _) Hsub].
  assert (list_to_set chain ⊆ (list_to_set cache : gset string)) as Hincl.
  { intros w Hw%elem_of_list_to_set. by apply elem_of_list_to_set, Hsub. }
  apply subseteq_size in Hincl. rewrite size_list_to_set in Hincl by done. lia.
Qed.

(** On a word list that is not empty but has fewer than five different words,
    [newGame] always gives up: after the first call and the three retries it
    shows that no chain could be built, and the game stays as it was. *)
Theorem newGame_too_few_words rnd k cache w :
  cache ≠ [] →
  size (list_to_set cache : gset string) < 5 →
  newGame rnd k cache w
  = mkRes (Some tt) w [SetStatus MsgBuilding; SetStatus MsgCouldNotBuild].
Proof.
  intros Hne Hsize. unfold newGame.
  by rewrite (buildWithRetries_too_few rnd k cache Hne Hsize).
Qed.

Lemma newGame_too_few_words_witness :
  newGame (λ n, n) 0 ["SMART"; "TRACE"; "SMART"] sampleStart
  = mkRes (Some tt) sampleStart
      [SetStatus MsgBuilding; SetStatus MsgCouldNotBuild].
Proof.
  apply (newGame_too_few_words (λ n, n) 0 ["SMART"; "TRACE"; "SMART"]
           sampleStart).
  - done.
  - vm_compute. lia.
Defined.

Lemma dropLast_append s c : dropLast (s +:+ String c "") = s.
Proof.
  unfold dropLast. rewrite length_append. cbn [String.length].
  replace (String.length s + 1 - 1) with (String.length s) by lia.
  induction s as [|d s IH]; [done|].
  rewrite append_cons. cbn [String.length String.substring]. by rewrite IH.
Qed.

Lemma onKeyDown_backspace_st w :
  active (game w) = true → typed (game w) ≠ "" →
  st (onKeyDown "Backspace" w) =
  {| game := {| words := words (game w); idx := idx (game w);
                typed := dropLast (typed (game w));
                greenCount := greenCount (game w); active := true |};
     sleeping := sleeping w |}.
Proof.
  intros Hact Htyped. unfold onKeyDown. rewrite bind_getGame, Hact. cbn [negb].
  rewrite bool_decide_eq_false_2 by done.
  rewrite bool_decide_eq_true_2 by done.
  destruct (typed (game w)) as [|c t] eqn:Ht; [done|].
  cbn [String.length Nat.ltb Nat.leb]. unfold setTyped.
  rewrite bind_setGame, keepsWorld_paintCurrent. cbn [game]. by rewrite Hact.
Qed.

(** Backspace takes back the letter just typed: a letter key that is
    accepted, followed by Backspace, leaves the page as it was. *)
Theorem backspace_undoes_letter key w :
  active (game w) = true →
  isLetterKey key = true →
  greenCount (game w) + String.length (typed (game w)) < 5 →
  run [KeyDown key; KeyDown "Backspace"] w = w.
Proof.
  intros Hact Hkey Hroom. cbn [run foldl]. unfold step. cbn [handle].
  rewrite (onKeyDown_letter_st key w) by done.
  destruct key as [|c [|c' key]]; try done. cbn [toUpperCase].
  rewrite onKeyDown_backspace_st; cbn [game typed]; [|done|].
  - rewrite dropLast_append. destruct w as [[ws i t g a] n].
    simpl in *. by subst.
  - by destruct (typed (game w)).
Qed.

Lemma backspace_undoes_letter_witness :
  let w := run (typeLetters "mx") sampleStart in
  run [KeyDown "q"; KeyDown "Backspace"] w = w.
Proof.
  apply (backspace_undoes_letter "q" (run (typeLetters "mx") sampleStart)).
  - vm_compute. reflexivity.
  - reflexivity.
  - vm_compute. lia.
Defined.

End MoreFacts.

(** * Properties of the timer *)

Section TimerFacts.

Import Timer.

(** However games are started and ended, the page never has more than one
    timer interval running, and the one it has is the one whose id is kept
    in [timerId]: starting a timer clears the one before, stopping leaves
    none. *)
Theorem timer_single_interval es :
  let t := timerRun es timer0 in
  live t = match timerId t with Some id => {[id]} | None => ∅ end.
Proof.
  cbn zeta. unfold timerRun.
  induction es as [|e es IH] using rev_ind; [done|].
  rewrite foldl_snoc. set (t := foldl timerStep timer0 es) in *.
  destruct e as [now id| |now id]; cbn [timerStep].
  - unfold startTimer, resetTimer, clearStored. cbn [live timerId].
    rewrite IH. destruct (timerId t) as [old|].
    + by rewrite difference_diag_L, union_empty_l_L.
    + by rewrite union_empty_l_L.
  - unfold stopTimer, clearStored. cbn [live timerId].
    rewrite IH. destruct (timerId t) as [old|]; [|done].
    by rewrite difference_diag_L.
  - unfold tick. by case_bool_decide.
Qed.

Lemma timeText_secs start now :
  timeText start now
  = timeText 0 (Z.of_nat (Z.to_nat ((now - start) `div` 1000)) * 1000)%Z
  ∨ ((now - start) `div` 1000 < 0)%Z.
Proof.
  destruct (decide ((now - start) `div` 1000 < 0)%Z) as [|Hpos]; [by right|].
  left. unfold timeText. rewrite Z.sub_0_r, Z.div_mul by done.
  by rewrite Z2Nat.id by lia.
Qed.

Lemma timeText_table :
  forallb (λ n, String.eqb (timeText 0 (Z.of_nat n * 1000)) (mmss n))
          (seq 0 (60 * 100)) = true.
Proof. vm_compute. reflexivity. Qed.

(** For an elapsed time from zero up to, not including, one hundred minutes
    the timer text is [mm:ss]: two digits of whole minutes, a colon, and two
    digits of seconds below 60. *)
Theorem timeText_mmss start now :
  (0 ≤ now - start < 6000000)%Z →
  timeText start now = mmss (Z.to_nat ((now - start) `div` 1000)).
Proof.
  intros [Hlo Hhi].
  assert (0 ≤ (now - start) `div` 1000 < 6000)%Z as [Hlo' Hhi'].
  { split; [by apply Z.div_pos|]. by apply Z.div_lt_upper_bound. }
  destruct (timeText_secs start now) as [->|?]; [|lia].
  pose proof timeText_table as Htable.
  rewrite forallb_forall in Htable.
  apply String.eqb_eq, Htable, in_seq. lia.
Qed.

Lemma timeText_mmss_witness :
  timeText 1700000000000 1700000754321
  = mmss (Z.to_nat ((1700000754321 - 1700000000000) `div` 1000)).
Proof.
  apply (timeText_mmss 1700000000000 1700000754321). lia.
Defined.

End TimerFacts.
